(** * Route following: map matching, turn, time and street queries, wire codec

    A shallow embedding of [routing/route.cpp].

    Conventions of the embedding.
    - [uint32_t] and [size_t] values are integers in [Z]; every place where
      the C++ narrows or wraps is written with [to_uint32] or [to_size_t].
    - [double] is the primitive binary64 type [float]; comparisons are the
      IEEE ones ([PrimFloat.ltb]), so a NaN compares false.
    - A [vector] is a [list]; an iterator is a position counted from
      [begin()], and [end()] is the length of the list.
    - A read outside a vector, a JSON member that is absent and a JSON value
      of the wrong kind have no defined result; functions that can reach one
      return [option], with [None] standing for the fault.
    - [ASSERT] is the release-build macro, which expands to nothing.
    - Functions that [route.cpp] calls and that live in other translation
      units (Mercator conversions, the followed polyline's arc lengths, the
      turn generator's path length, ULP comparison, ...) are the operations
      of the class [Externals]. *)

From Stdlib Require Import ZArith Lia List PrimFloat Uint63 SpecFloat FloatOps.
From stdpp Require Import gmap strings list.

Open Scope Z_scope.

(** ** Machine integers *)

Definition to_uint32 (z : Z) : Z := z mod 2 ^ 32.
Definition to_size_t (z : Z) : Z := z mod 2 ^ 64.
Definition to_int32 (z : Z) : Z := (z + 2 ^ 31) mod 2 ^ 32 - 2 ^ 31.

(** [uint32_t] to [double]: exact, every 32-bit value is representable. *)
Definition uint32_to_double (z : Z) : float := PrimFloat.of_uint63 (Uint63.of_Z z).

(** ** [std::upper_bound]

    The halving loop of the standard library: [len] is the size of the
    window that starts at [first]; [comp val elem] is the comparator.  The
    window shrinks at every turn, so [length l] turns are enough. *)

Section UpperBound.
Context {V A : Type} (comp : V → A → bool) (val : V) (l : list A).

Fixpoint upper_bound_loop (turns first len : nat) : nat :=
  match turns with
  | O => first
  | S turns' =>
      if (len =? 0)%nat then first
      else
        let half := (len / 2)%nat in
        let middle := (first + half)%nat in
        match l !! middle with
        | None => first
        | Some elem =>
            if comp val elem
            then upper_bound_loop turns' first half
            else upper_bound_loop turns' (S middle) (len - half - 1)%nat
        end
  end.

Definition upper_bound : nat := upper_bound_loop (length l) 0%nat (length l).
End UpperBound.

(** ** Data model *)

(** Modelled from the spec: a point ([m2::PointD], declared in
    geometry/point2d.hpp), a 2D coordinate in the planar projection. *)
Record PointD := mkPointD { px : float; py : float }.

Definition origin : PointD := mkPointD 0 0.

(** Modelled from the spec: the cursor of the followed polyline
    ([FollowedPolyline::Iter], declared in followed_polyline.hpp): projected
    point, vertex index and validity. *)
Record Iter := mkIter { m_pt : PointD; m_ind : Z; iter_valid : bool }.

(** Modelled from the spec: the polyline tracker ([FollowedPolyline]): the
    ordered points and the current cursor. *)
Record FollowedPolyline := mkFollowedPolyline {
  m_polyPoints : list PointD;
  m_current : Iter
}.

(** Modelled from the spec: a turn instruction ([turns::TurnItem], declared in
    turns.hpp).  The two direction enumerations are kept as their integer
    codes, which is what the codec reads and writes. *)
Record TurnItem := mkTurnItem {
  m_index : Z;
  m_turn : Z;
  m_exitNum : Z;
  m_keepAnyway : bool;
  m_pedestrianTurn : Z;
  m_sourceName : string;
  m_targetName : string
}.

(** [TTimeItem] is a pair (vertex index, cumulative seconds) and
    [TStreetItem] a pair (vertex index, street name). *)
Abbreviation TTimeItem := (Z * Z)%type.
Abbreviation TStreetItem := (Z * string)%type.

(** Modelled from the spec: the routing settings ([RoutingSettings],
    declared in routing_settings.hpp). *)
Record RoutingSettings := mkRoutingSettings {
  m_matchingThresholdM : float;
  m_matchRoute : bool;
  m_keepPedestrianInfo : bool
}.

(** The members of [Route] that route.cpp reads and writes (the class is
    declared in route.hpp). *)
Record Route := mkRoute {
  m_router : string;
  m_routingSettings : RoutingSettings;
  m_name : string;
  m_poly : FollowedPolyline;
  m_simplifiedPoly : FollowedPolyline;
  m_absentCountries : gset string;
  m_turns : list TurnItem;
  m_times : list TTimeItem;
  m_streets : list TStreetItem;
  m_currentTime : float
}.

(** Modelled from the spec: the GPS fix ([location::GpsInfo], declared in
    platform/location.hpp). *)
Record GpsInfo := mkGpsInfo {
  m_latitude : float;
  m_longitude : float;
  m_horizontalAccuracy : float;
  m_speed : float;
  m_timestamp : float;
  m_bearing : float
}.

(** Modelled from the spec: the matching result
    ([location::RouteMatchingInfo]); [Set] stores the three values. *)
Record RouteMatchingInfo := mkRouteMatchingInfo {
  m_matchedPosition : PointD;
  m_indexInRoute : Z;
  m_distanceFromBegin : float
}.

(** Modelled from the spec: the search rectangle ([m2::RectD], declared in
    geometry/rect2d.hpp). *)
Record RectD := mkRectD { minX : float; minY : float; maxX : float; maxY : float }.

(** ** Operations of the other translation units *)

Class Externals := {
  (* geometry/mercator.hpp *)
  FromLatLon : float → float → PointD;
  YToLat : float → float;
  XToLon : float → float;
  DistanceOnEarth : PointD → PointD → float;
  MetresToXY : float → float → float → RectD;
  (* geometry/rect2d.hpp *)
  RectCenter : RectD → PointD;
  IsPointInside : RectD → PointD → bool;
  (* geometry: projection of a point on the segment between two points *)
  ProjectOnSegment : PointD → PointD → PointD → PointD;
  (* routing/base/followed_polyline.hpp: arc lengths *)
  GetDistanceM : list PointD → Iter → Iter → float;
  GetTotalDistanceM : FollowedPolyline → float;
  PolyMercatorDistanceFromBegin : FollowedPolyline → float;
  (* routing/turns_generator.hpp *)
  CalculateMercatorDistanceAlongPath : Z → Z → list PointD → float;
  (* base/math.hpp, geometry/point2d.hpp, geometry/angles.hpp *)
  AlmostEqualULPs : float → float → bool;
  AlmostEqualULPsPoint : PointD → PointD → bool;
  AngleTo : PointD → PointD → float;
  RadToDeg : float → float;
  (* platform/location.hpp *)
  AngleToBearing : float → float;
  HasSpeed : GpsInfo → bool;
  (* geometry/simplification.hpp *)
  SimplifyNearOptimal : Z → list PointD → float → list PointD;
  (* the conversion (uint32_t)d of a double *)
  double_to_uint32 : float → Z;
  (* the default-constructed turns::TurnItem() *)
  TurnItem_default : TurnItem
}.

(** ** The followed polyline *)

Definition GetSize (pts : list PointD) : Z := Z.of_nat (length pts).

(** [GetPoint] is only meaningful for an index below [GetSize]; the model
    gives the origin elsewhere. *)
Definition GetPoint (pts : list PointD) (i : Z) : PointD :=
  default origin (pts !! Z.to_nat i).

(** Modelled from the spec: [FollowedPolyline::GetIterToIndex], the cursor
    standing on vertex [idx]. *)
Definition GetIterToIndex (fp : FollowedPolyline) (idx : Z) : Iter :=
  mkIter (GetPoint (m_polyPoints fp) idx) idx true.

(** Modelled from the spec: [FollowedPolyline::IsValid], true once
    constructed from a non-empty point sequence. *)
Definition IsValid (fp : FollowedPolyline) : bool :=
  match m_polyPoints fp with [] => false | _ :: _ => true end.

(** Modelled from the spec: the constructor of [FollowedPolyline]; the
    cursor starts on the first vertex. *)
Definition FollowedPolyline_of (pts : list PointD) : FollowedPolyline :=
  mkFollowedPolyline pts
    (mkIter (GetPoint pts 0) 0 (match pts with [] => false | _ :: _ => true end)).

Definition set_current (fp : FollowedPolyline) (it : Iter) : FollowedPolyline :=
  mkFollowedPolyline (m_polyPoints fp) it.

Section Tracker.
Context `{Externals}.

(** Modelled from the spec: a candidate of the projection search, the
    projection of the centre of [rect] on segment [i], when it falls inside
    [rect]. *)
Definition segment_candidate (fp : FollowedPolyline) (rect : RectD) (i : nat)
  : option Iter :=
  match m_polyPoints fp !! i, m_polyPoints fp !! S i with
  | Some a, Some b =>
      let pt := ProjectOnSegment a b (RectCenter rect) in
      if IsPointInside rect pt then Some (mkIter pt (Z.of_nat i) true) else None
  | _, _ => None
  end.

(** Modelled from the spec: the best candidate for a score, the first one
    winning ties. *)
Definition closest (score : Iter → float) (cands : list Iter) : option Iter :=
  fold_left
    (fun best it =>
       match best with
       | None => Some it
       | Some b => if PrimFloat.ltb (score it) (score b) then Some it else best
       end)
    cands None.

(** Modelled from the spec: [FollowedPolyline::UpdateProjectionByPrediction]
    (followed_polyline.cpp).  The search is restricted to the segments from
    the cursor's one to the last; with a prediction ([0 <= predictDistance])
    the candidates are ranked by how far their arc length from the cursor is
    from the predicted one, otherwise by their distance to the fix.  With a
    candidate the cursor moves to it; without one the result is a cursor
    marked invalid and the tracker keeps its own. *)
Definition UpdateProjectionByPrediction (fp : FollowedPolyline) (rect : RectD)
    (predictDistance : float) : FollowedPolyline * Iter :=
  let cur := m_current fp in
  let start := Z.to_nat (m_ind cur) in
  let count := (length (m_polyPoints fp) - 1)%nat in
  let cands := omap (segment_candidate fp rect) (seq start (count - start)) in
  let score :=
    if PrimFloat.leb 0 predictDistance
    then fun it => PrimFloat.abs
                     (PrimFloat.sub (GetDistanceM (m_polyPoints fp) cur it) predictDistance)
    else fun it => DistanceOnEarth (RectCenter rect) (m_pt it) in
  match closest score cands with
  | Some it => (set_current fp it, it)
  | None => (fp, mkIter (m_pt cur) (m_ind cur) false)
  end.
End Tracker.

(** ** The route *)

Definition kLocationTimeThreshold : float := 60.
Definition kOnEndToleranceM : float := 10.
Definition kSteetNameLinkMeters : float := 400.
(** The literal [0.00000001] of [Update], as the double it denotes. *)
Definition kSimplifyEpsilon : float := 0x1.5798ee2308c3ap-27.

Definition set_poly (r : Route) (p : FollowedPolyline) : Route :=
  mkRoute (m_router r) (m_routingSettings r) (m_name r) p (m_simplifiedPoly r)
    (m_absentCountries r) (m_turns r) (m_times r) (m_streets r) (m_currentTime r).

Definition set_simplifiedPoly (r : Route) (p : FollowedPolyline) : Route :=
  mkRoute (m_router r) (m_routingSettings r) (m_name r) (m_poly r) p
    (m_absentCountries r) (m_turns r) (m_times r) (m_streets r) (m_currentTime r).

Definition set_absentCountries (r : Route) (s : gset string) : Route :=
  mkRoute (m_router r) (m_routingSettings r) (m_name r) (m_poly r) (m_simplifiedPoly r)
    s (m_turns r) (m_times r) (m_streets r) (m_currentTime r).

Definition set_turns (r : Route) (v : list TurnItem) : Route :=
  mkRoute (m_router r) (m_routingSettings r) (m_name r) (m_poly r) (m_simplifiedPoly r)
    (m_absentCountries r) v (m_times r) (m_streets r) (m_currentTime r).

Definition set_times (r : Route) (v : list TTimeItem) : Route :=
  mkRoute (m_router r) (m_routingSettings r) (m_name r) (m_poly r) (m_simplifiedPoly r)
    (m_absentCountries r) (m_turns r) v (m_streets r) (m_currentTime r).

Definition set_streets (r : Route) (v : list TStreetItem) : Route :=
  mkRoute (m_router r) (m_routingSettings r) (m_name r) (m_poly r) (m_simplifiedPoly r)
    (m_absentCountries r) (m_turns r) (m_times r) v (m_currentTime r).

Definition set_currentTime (r : Route) (t : float) : Route :=
  mkRoute (m_router r) (m_routingSettings r) (m_name r) (m_poly r) (m_simplifiedPoly r)
    (m_absentCountries r) (m_turns r) (m_times r) (m_streets r) t.

Definition polyPoints (r : Route) : list PointD := m_polyPoints (m_poly r).
Definition GetCurrentIter (r : Route) : Iter := m_current (m_poly r).

Definition AddAbsentCountry (r : Route) (name : string) : Route :=
  if decide (name = EmptyString) then r
  else set_absentCountries r ({[ name ]} ∪ m_absentCountries r).

Definition GetTotalTimeSec (r : Route) : Z :=
  match last (m_times r) with
  | None => 0
  | Some item => item.2
  end.

(** [GetCurrentTurn()]: the position [upper_bound] finds for a probe item
    that carries the cursor's vertex index, narrowed to 32 bits, under the
    comparator [lhs.m_index < rhs.m_index]. *)
Definition GetCurrentTurn (r : Route) : nat :=
  upper_bound (fun (v : Z) (t : TurnItem) => v <? m_index t)
    (to_uint32 (m_ind (GetCurrentIter r))) (m_turns r).

(** The scan of [GetCurrentStreetNameIterAfter]: [rest] is the table from
    position [cur] on.  Reading [curIter->first] with [curIter] at the end of
    the table is the fault. *)
Fixpoint street_scan (ind : Z) (rest : list TStreetItem) (prev cur : nat)
  : option nat :=
  match rest with
  | [] => None
  | c :: rest' =>
      if c.1 <? ind then
        match rest' with
        | [] => Some (S cur)
        | _ :: _ => street_scan ind rest' (S prev) (S cur)
        end
      else Some (if c.1 =? ind then cur else prev)
  end.

Definition GetCurrentStreetNameIterAfter (streets : list TStreetItem) (iter : Iter)
  : option nat :=
  match streets with
  | [] => Some (length streets)
  | _ :: rest => street_scan (m_ind iter) rest 0%nat 1%nat
  end.

Definition GetCurrentStreetName (r : Route) : option string :=
  it ← GetCurrentStreetNameIterAfter (m_streets r) (GetCurrentIter r);
  match m_streets r !! it with
  | None => Some EmptyString
  | Some item => Some item.2
  end.

Definition string_empty (s : string) : bool :=
  match s with EmptyString => true | String _ _ => false end.

(** [std::max] on doubles. *)
Definition fmax (a b : float) : float := if PrimFloat.ltb a b then b else a.

Section RouteQueries.
Context `{Externals}.

Definition GetTotalDistanceMeters (r : Route) : float := GetTotalDistanceM (m_poly r).

Definition GetMercatorDistanceFromBegin (r : Route) : float :=
  PolyMercatorDistanceFromBegin (m_poly r).

(** The loop of [GetTurnsDistances]: [prev] is the table entry before the
    current one ([None] at [begin()]), [acc] is [mercatorDistance]. *)
Fixpoint turns_distances_loop (pts : list PointD) (lastIdx : Z)
    (prev : option TurnItem) (acc : float) (ts : list TurnItem) : list float :=
  match ts with
  | [] => []
  | t :: ts' =>
      if (m_index t =? 0) || (m_index t =? lastIdx)
      then turns_distances_loop pts lastIdx (Some t) acc ts'
      else
        let formerTurnIndex := match prev with None => 0 | Some p => m_index p end in
        let acc' :=
          PrimFloat.add acc
            (CalculateMercatorDistanceAlongPath formerTurnIndex (m_index t) pts) in
        acc' :: turns_distances_loop pts lastIdx (Some t) acc' ts'
  end.

Definition GetTurnsDistances (r : Route) : list float :=
  turns_distances_loop (polyPoints r) (to_size_t (GetSize (polyPoints r) - 1))
    None 0%float (m_turns r).

(** [distFn] of [GetCurrentTimeToEndSec]. *)
Definition distFn (r : Route) (s e : Z) : float :=
  GetDistanceM (polyPoints r) (GetIterToIndex (m_poly r) s) (GetIterToIndex (m_poly r) e).

(** [GetCurrentTimeToEndSec], with the division of doubles it uses as a
    parameter. *)
Definition GetCurrentTimeToEndSec_with (fdiv : float → float → float) (r : Route) : Z :=
  let polySz := GetSize (polyPoints r) in
  match m_times r with
  | [] => 0
  | _ :: _ =>
      if polySz =? 0 then 0
      else
        let cur := GetCurrentIter r in
        let it := upper_bound (fun (v : Z) (item : TTimeItem) => v <? item.1)
                    (m_ind cur) (m_times r) in
        match m_times r !! it with
        | None => 0
        | Some next =>
            let idx := it in
            let prev := m_times r !! (idx - 1)%nat in
            let time :=
              match idx, prev with
              | S _, Some p => PrimFloat.sub (uint32_to_double next.2) (uint32_to_double p.2)
              | _, _ => uint32_to_double next.2
              end in
            let dist :=
              distFn r (match idx, prev with S _, Some p => p.1 | _, _ => 0 end) next.1 in
            if negb (AlmostEqualULPs dist 0)
            then
              let distRemain :=
                PrimFloat.sub (distFn r (m_ind cur) next.1)
                  (DistanceOnEarth (m_pt cur) (GetPoint (polyPoints r) (m_ind cur))) in
              double_to_uint32
                (PrimFloat.add
                   (uint32_to_double (to_uint32 (GetTotalTimeSec r - next.2)))
                   (PrimFloat.mul time (fdiv distRemain dist)))
            else to_uint32 (GetTotalTimeSec r - next.2)
        end
  end.

Definition GetCurrentTimeToEndSec (r : Route) : Z :=
  GetCurrentTimeToEndSec_with PrimFloat.div r.

(** The [for] loop of [GetStreetNameAfterIdx] over the table from [it] on. *)
Fixpoint street_name_loop (fp : FollowedPolyline) (polyIter : Iter)
    (rest : list TStreetItem) : string :=
  match rest with
  | [] => EmptyString
  | item :: rest' =>
      if string_empty item.2 then street_name_loop fp polyIter rest'
      else if PrimFloat.ltb
                (GetDistanceM (m_polyPoints fp) polyIter
                   (GetIterToIndex fp (Z.max item.1 (to_uint32 (m_ind polyIter)))))
                kSteetNameLinkMeters
           then item.2
           else EmptyString
  end.

Definition GetStreetNameAfterIdx (r : Route) (idx : Z) : option string :=
  let polyIter := GetIterToIndex (m_poly r) idx in
  it ← GetCurrentStreetNameIterAfter (m_streets r) polyIter;
  if (it =? length (m_streets r))%nat then Some EmptyString
  else Some (street_name_loop (m_poly r) polyIter (drop it (m_streets r))).

(** [GetCurrentTurn(distanceToTurnMeters, turn)]: the two reference
    arguments come in with the caller's values and go out in the result. *)
Definition GetCurrentTurnDist (r : Route) (distanceToTurnMeters : float)
    (turn : TurnItem) : bool * float * TurnItem :=
  match m_turns r !! GetCurrentTurn r with
  | None => (false, distanceToTurnMeters, turn)
  | Some t =>
      (true,
       GetDistanceM (polyPoints r) (GetCurrentIter r) (GetIterToIndex (m_poly r) (m_index t)),
       t)
  end.

Definition GetNextTurn (r : Route) : bool * float * TurnItem :=
  let it := GetCurrentTurn r in
  let turnsEnd := length (m_turns r) in
  if (it =? turnsEnd)%nat || (S it =? turnsEnd)%nat
  then (false, 0%float, TurnItem_default)
  else
    match m_turns r !! S it with
    | None => (false, 0%float, TurnItem_default)
    | Some t =>
        (true,
         GetDistanceM (polyPoints r) (GetCurrentIter r) (GetIterToIndex (m_poly r) (m_index t)),
         t)
    end.

Definition MoveIterator (r : Route) (info : GpsInfo) : Route * bool :=
  let predictDistance :=
    if PrimFloat.ltb 0 (m_currentTime r) && HasSpeed info
    then
      let deltaT := PrimFloat.sub (m_timestamp info) (m_currentTime r) in
      if PrimFloat.ltb 0 deltaT && PrimFloat.ltb deltaT kLocationTimeThreshold
      then PrimFloat.mul (m_speed info) deltaT
      else (-1)%float
    else (-1)%float in
  let rect :=
    MetresToXY (m_longitude info) (m_latitude info)
      (fmax (m_matchingThresholdM (m_routingSettings r)) (m_horizontalAccuracy info)) in
  let '(poly', res) := UpdateProjectionByPrediction (m_poly r) rect predictDistance in
  let simplified' :=
    if IsValid (m_simplifiedPoly r)
    then (UpdateProjectionByPrediction (m_simplifiedPoly r) rect predictDistance).1
    else m_simplifiedPoly r in
  (set_simplifiedPoly (set_poly r poly') simplified', iter_valid res).

(** The [do ... while] of [GetPolySegAngle]: the result is the final [i] and
    the last point read. *)
Fixpoint seg_angle_loop (turns : nat) (pts : list PointD) (p1 : PointD) (i : Z)
  : Z * PointD :=
  let p2 := GetPoint pts i in
  if AlmostEqualULPsPoint p1 p2 && (i + 1 <? GetSize pts)
  then match turns with
       | O => (i + 1, p2)
       | S turns' => seg_angle_loop turns' pts p1 (i + 1)
       end
  else (if AlmostEqualULPsPoint p1 p2 then i + 1 else i, p2).

Definition GetPolySegAngle (r : Route) (ind : Z) : float :=
  let polySz := GetSize (polyPoints r) in
  if polySz <=? ind + 1 then 0%float
  else
    let p1 := GetPoint (polyPoints r) ind in
    let '(i, p2) := seg_angle_loop (length (polyPoints r)) (polyPoints r) p1 (ind + 1) in
    if i =? polySz then 0%float else RadToDeg (AngleTo p1 p2).

Definition MatchLocationToRoute (r : Route) (location : GpsInfo)
    (routeMatchingInfo : RouteMatchingInfo) : GpsInfo * RouteMatchingInfo :=
  if IsValid (m_poly r) then
    let iter := GetCurrentIter r in
    let locationMerc := FromLatLon (m_latitude location) (m_longitude location) in
    let distFromRouteM := DistanceOnEarth (m_pt iter) locationMerc in
    if PrimFloat.ltb distFromRouteM (m_matchingThresholdM (m_routingSettings r)) then
      (mkGpsInfo (YToLat (py (m_pt iter))) (XToLon (px (m_pt iter)))
         (m_horizontalAccuracy location) (m_speed location) (m_timestamp location)
         (if m_matchRoute (m_routingSettings r)
          then AngleToBearing (GetPolySegAngle r (m_ind iter))
          else m_bearing location),
       mkRouteMatchingInfo (m_pt iter) (m_ind iter) (GetMercatorDistanceFromBegin r))
    else (location, routeMatchingInfo)
  else (location, routeMatchingInfo).

Definition Update (r : Route) : Route :=
  if negb (IsValid (m_poly r)) then r
  else
    let simplified :=
      if m_keepPedestrianInfo (m_routingSettings r)
      then FollowedPolyline_of (SimplifyNearOptimal 20 (polyPoints r) kSimplifyEpsilon)
      else FollowedPolyline_of [] in
    set_currentTime (set_simplifiedPoly r simplified) 0%float.

End RouteQueries.

(** ** The wire document

    The document is the tree that rapidjson builds and reads.  Writing it out
    as text and parsing the text again is taken to give the same tree back;
    a number written from an integer and read with [GetDouble] is converted,
    as the library does. *)

#[local] Unset Elimination Schemes.
Inductive Json :=
| JNull
| JBool (b : bool)
| JInt (z : Z)
| JDouble (d : float)
| JString (s : string)
| JArray (items : list Json)
| JObject (members : list (string * Json)).
#[local] Set Elimination Schemes.

Definition Z_to_double (z : Z) : float :=
  if z <? 0 then PrimFloat.opp (PrimFloat.of_uint63 (Uint63.of_Z (- z)))
  else PrimFloat.of_uint63 (Uint63.of_Z z).

(** Modelled from the spec: the accessors of the JSON library
    (3party rapidjson, document.h): a required member that is absent, or a
    value of another kind than the one asked for, is a fatal fault. *)
Definition member (name : string) (v : Json) : option Json :=
  match v with
  | JObject ms => snd <$> List.find (fun m => String.eqb m.1 name) ms
  | _ => None
  end.

(** Modelled from the spec: the elements of a JSON array; a value of another
    kind is a fault. *)
Definition array_items (v : Json) : option (list Json) :=
  match v with JArray items => Some items | _ => None end.

(** Modelled from the spec: [GetDouble] reads any number; a value of
    another kind is a fault. *)
Definition GetDouble (v : Json) : option float :=
  match v with
  | JDouble d => Some d
  | JInt z => Some (Z_to_double z)
  | _ => None
  end.

(** Modelled from the spec: [GetInt] reads an integer that fits a signed
    32-bit [int]; any other value is a fault. *)
Definition GetInt (v : Json) : option Z :=
  match v with
  | JInt z => if (- 2 ^ 31 <=? z) && (z <? 2 ^ 31) then Some z else None
  | _ => None
  end.

(** Modelled from the spec: [GetString] and [GetBool_] read a string and a
    boolean; a value of another kind is a fault. *)
Definition GetString (v : Json) : option string :=
  match v with JString s => Some s | _ => None end.

Definition GetBool_ (v : Json) : option bool :=
  match v with JBool b => Some b | _ => None end.

Section WireCodec.
Context `{Externals}.

Definition encode_point (routePoint : PointD) : Json :=
  JObject [("latitude", JDouble (YToLat (py routePoint)));
           ("longitude", JDouble (XToLon (px routePoint)))].

Definition encode_time (routeTime : TTimeItem) : Json :=
  JObject [("time", JInt routeTime.2); ("index", JInt routeTime.1)].

Definition encode_street (routeStreet : TStreetItem) : Json :=
  JObject [("name", JString routeStreet.2); ("index", JInt routeStreet.1)].

Definition encode_instruction (previousIndex : Z) (routeTurn : TurnItem) (time : Z) : Json :=
  JObject [("streetSource", JString (m_sourceName routeTurn));
           ("streetTarget", JString (m_targetName routeTurn));
           ("exitNumber", JInt (m_exitNum routeTurn));
           ("exited", JBool (negb (m_exitNum routeTurn =? 0)));
           ("turnDirection", JInt (m_turn routeTurn));
           ("pedestrianDirection", JInt (m_pedestrianTurn routeTurn));
           ("startInterval", JInt previousIndex);
           ("endInterval", JInt (m_index routeTurn));
           ("time", JInt time);
           ("keepAnyways", JBool (m_keepAnyway routeTurn))].

(** The instructions loop: [i] is the position in the turn table, and
    [m_times[i]] is read at the same position. *)
Fixpoint instructions_loop (times : list TTimeItem) (previousIndex : Z) (i : nat)
    (ts : list TurnItem) : option (list Json) :=
  match ts with
  | [] => Some []
  | routeTurn :: ts' =>
      timeItem ← times !! i;
      rest ← instructions_loop times (m_index routeTurn) (S i) ts';
      Some (encode_instruction previousIndex routeTurn timeItem.2 :: rest)
  end.

Definition GetMeRouteAsJson (r : Route) : option Json :=
  let pts := polyPoints r in
  let polySz := GetSize pts in
  instructions ← instructions_loop (m_times r) 0 0%nat (m_turns r);
  let mercatorDistance :=
    if 0 <? polySz then CalculateMercatorDistanceAlongPath 0 (polySz - 1) pts
    else 0%float in
  Some (JObject
    [("points", JArray (encode_point <$> pts));
     ("turns", JArray (JDouble <$> GetTurnsDistances r));
     ("times", JArray (encode_time <$> m_times r));
     ("streets", JArray (encode_street <$> m_streets r));
     ("instructions", JArray instructions);
     ("absentCountries", JArray (JString <$> elements (m_absentCountries r)));
     ("distanceMercator", JDouble mercatorDistance);
     ("distance", JDouble (GetTotalDistanceMeters r));
     ("duration", JInt (GetTotalTimeSec r));
     ("name", JString (m_router r))]).

Definition decode_point (item : Json) : option PointD :=
  latitude ← member "latitude" item ≫= GetDouble;
  longitude ← member "longitude" item ≫= GetDouble;
  Some (FromLatLon latitude longitude).

Definition decode_time (item : Json) : option TTimeItem :=
  time ← member "latitude" item ≫= GetDouble;
  index ← member "longitude" item ≫= GetInt;
  Some (double_to_uint32 (Z_to_double index), double_to_uint32 time).

Definition decode_street (item : Json) : option TStreetItem :=
  street ← member "name" item ≫= GetString;
  index ← member "index" item ≫= GetInt;
  Some (double_to_uint32 (Z_to_double index), street).

Definition decode_turn (item : Json) : option TurnItem :=
  index ← member "endInterval" item ≫= GetInt;
  exitNum ← member "exitNumber" item ≫= GetInt;
  keepAnyways ← member "keepAnyways" item ≫= GetBool_;
  turnDirection ← member "turnDirection" item ≫= GetInt;
  pedestrianTurnDirection ← member "pedestrianDirection" item ≫= GetInt;
  streetSource ← member "streetSource" item ≫= GetString;
  streetTarget ← member "streetTarget" item ≫= GetString;
  Some (mkTurnItem (to_uint32 index) (to_int32 (to_uint32 turnDirection))
          (to_uint32 exitNum) keepAnyways
          (to_int32 (to_uint32 pedestrianTurnDirection)) streetSource streetTarget).

Definition decode_points (document : Json) : option (list PointD) :=
  items ← member "points" document ≫= array_items;
  mapM decode_point items.

Definition decode_times (document : Json) : option (list TTimeItem) :=
  items ← member "times" document ≫= array_items;
  mapM decode_time items.

Definition decode_streets (document : Json) : option (list TStreetItem) :=
  items ← member "streets" document ≫= array_items;
  mapM decode_street items.

Definition decode_turns (document : Json) : option (list TurnItem) :=
  items ← member "instructions" document ≫= array_items;
  mapM decode_turn items.

(** Modelled from the spec: the setters of route.hpp.  [SetGeometry] replaces
    the tracker and calls [Update]; the three table setters replace their
    table. *)
Definition SetGeometry (r : Route) (points : list PointD) : Route :=
  Update (set_poly r (FollowedPolyline_of points)).

Definition SetTurnInstructions (r : Route) (v : list TurnItem) : Route := set_turns r v.
Definition SetSectionTimes (r : Route) (v : list TTimeItem) : Route := set_times r v.
Definition SetStreetNames (r : Route) (v : list TStreetItem) : Route := set_streets r v.

Definition FromJson (r : Route) (document : Json) : option Route :=
  points ← decode_points document;
  routeTimes ← decode_times document;
  streets ← decode_streets document;
  routeTurns ← decode_turns document;
  Some (SetStreetNames
          (SetSectionTimes
             (SetTurnInstructions (SetGeometry r points) routeTurns)
             routeTimes)
          streets).

End WireCodec.

(** ** What the specification says, in its own words

    These definitions follow the text of the specification, not the code;
    the theorems compare the two. *)

(** The position of the first element that satisfies [P], the length of the
    list when there is none. *)
Fixpoint first_index {A : Type} (P : A → bool) (l : list A) : nat :=
  match l with
  | [] => 0%nat
  | x :: l' => if P x then 0%nat else S (first_index P l')
  end.

(** A range is partitioned for [comp val] when the elements that satisfy it
    come after all those that do not: the precondition of [upper_bound]. *)
Definition partitioned {V A : Type} (comp : V → A → bool) (val : V) (l : list A) : Prop :=
  ∀ (i j : nat) (x y : A), (i ≤ j)%nat → l !! i = Some x → l !! j = Some y →
    comp val x = true → comp val y = true.

(** Maneuver table: "the first turn whose vertexIndex >= cursor.vertexIndex". *)
Definition spec_CurrentTurn (turns : list TurnItem) (cursor : Z) : nat :=
  first_index (fun t => cursor <=? m_index t) turns.

(** Tables "ordered ascending by vertexIndex". *)
Definition ascending (idxs : list Z) : Prop :=
  ∀ (i j : nat) (a b : Z), (i < j)%nat → idxs !! i = Some a → idxs !! j = Some b → a ≤ b.

Definition strictly_ascending (idxs : list Z) : Prop :=
  ∀ (i j : nat) (a b : Z), (i < j)%nat → idxs !! i = Some a → idxs !! j = Some b → a < b.

(** Street table: an entry "defines a half-open range
    [vertexIndex, nextEntry.vertexIndex)"; the last one is open to the end. *)
Definition range_contains (streets : list TStreetItem) (p : nat) (idx : Z) : Prop :=
  ∃ e, streets !! p = Some e ∧ e.1 ≤ idx ∧ ∀ n, streets !! S p = Some n → idx < n.1.

(** A turn is displayable when it is neither at vertex 0 nor at the last
    vertex. *)
Definition displayable (lastIdx : Z) (t : TurnItem) : bool :=
  negb (m_index t =? 0) && negb (m_index t =? lastIdx).

Section SpecSide.
Context `{Externals}.

(** Street lookahead from a starting entry: the first non-empty name at or
    after [start], kept when it lies within the lookahead distance of the
    query position. *)
Definition spec_lookahead (r : Route) (idx : Z) (start : nat) : string :=
  match List.find (fun e : TStreetItem => negb (string_empty e.2)) (drop start (m_streets r)) with
  | None => EmptyString
  | Some e =>
      if PrimFloat.ltb
           (GetDistanceM (polyPoints r) (GetIterToIndex (m_poly r) idx)
              (GetIterToIndex (m_poly r) (Z.max e.1 (to_uint32 idx))))
           kSteetNameLinkMeters
      then e.2 else EmptyString
  end.

(** Wire document, [turns]: one cumulative value per displayable turn, each
    adding the path distance from the previous displayable turn (the route
    start for the first).  [path] is the measure of path distance. *)
Fixpoint spec_cumulative (path : Z → Z → float) (prevIdx : Z) (acc : float)
    (ds : list TurnItem) : list float :=
  match ds with
  | [] => []
  | t :: ds' =>
      let acc' := PrimFloat.add acc (path prevIdx (m_index t)) in
      acc' :: spec_cumulative path (m_index t) acc' ds'
  end.

Definition spec_turns_values (path : Z → Z → float) (r : Route) : list float :=
  spec_cumulative path 0 0%float
    (List.filter (displayable (GetSize (polyPoints r) - 1)) (m_turns r)).

(** Path distance in meters: the tracker's arc length between two vertices. *)
Definition path_meters (r : Route) (a b : Z) : float := distFn r a b.

(** Path distance in the units of the planar projection. *)
Definition path_mercator (r : Route) (a b : Z) : float :=
  CalculateMercatorDistanceAlongPath a b (polyPoints r).

End SpecSide.

(** The updates of a sequence of fixes, one [MoveIterator] after the other. *)
Definition MoveIterators `{Externals} (r : Route) (fixes : list GpsInfo) : Route :=
  fold_left (fun r' info => (MoveIterator r' info).1) fixes r.

Definition vertexIndex (r : Route) : Z := m_ind (GetCurrentIter r).

(** ** A flat-earth instance of the external operations

    Used to run the model on concrete routes: the projection is the identity
    on (longitude, latitude), one unit of the projection is 100 km, arc
    lengths are sums of straight segments. *)

Definition metres_per_unit : float := 100000.

Definition planar_length (p q : PointD) : float :=
  let dx := PrimFloat.sub (px q) (px p) in
  let dy := PrimFloat.sub (py q) (py p) in
  PrimFloat.sqrt (PrimFloat.add (PrimFloat.mul dx dx) (PrimFloat.mul dy dy)).

Definition planar_metres (p q : PointD) : float :=
  PrimFloat.mul metres_per_unit (planar_length p q).

Fixpoint path_length (measure : PointD → PointD → float) (pts : list PointD) : float :=
  match pts with
  | a :: rest =>
      match rest with
      | b :: _ => PrimFloat.add (measure a b) (path_length measure rest)
      | [] => 0%float
      end
  | [] => 0%float
  end.

(** The vertices from index [s] to index [e], both included. *)
Definition vertices_between (pts : list PointD) (s e : Z) : list PointD :=
  take (Z.to_nat (e - s + 1)) (drop (Z.to_nat s) pts).

Definition planar_GetDistanceM (pts : list PointD) (it1 it2 : Iter) : float :=
  if m_ind it1 =? m_ind it2 then planar_metres (m_pt it1) (m_pt it2)
  else
    PrimFloat.add
      (PrimFloat.add
         (planar_metres (m_pt it1) (GetPoint pts (m_ind it1 + 1)))
         (path_length planar_metres (vertices_between pts (m_ind it1 + 1) (m_ind it2))))
      (planar_metres (GetPoint pts (m_ind it2)) (m_pt it2)).

Definition planar_MetresToXY (lon lat metres : float) : RectD :=
  let d := PrimFloat.div metres metres_per_unit in
  mkRectD (PrimFloat.sub lon d) (PrimFloat.sub lat d) (PrimFloat.add lon d) (PrimFloat.add lat d).

Definition planar_RectCenter (rect : RectD) : PointD :=
  mkPointD (PrimFloat.div (PrimFloat.add (minX rect) (maxX rect)) 2)
           (PrimFloat.div (PrimFloat.add (minY rect) (maxY rect)) 2).

Definition planar_IsPointInside (rect : RectD) (p : PointD) : bool :=
  PrimFloat.leb (minX rect) (px p) && PrimFloat.leb (px p) (maxX rect) &&
  PrimFloat.leb (minY rect) (py p) && PrimFloat.leb (py p) (maxY rect).

Definition planar_ProjectOnSegment (a b p : PointD) : PointD :=
  let dx := PrimFloat.sub (px b) (px a) in
  let dy := PrimFloat.sub (py b) (py a) in
  let len2 := PrimFloat.add (PrimFloat.mul dx dx) (PrimFloat.mul dy dy) in
  if PrimFloat.eqb len2 0 then a
  else
    let t := PrimFloat.div
               (PrimFloat.add (PrimFloat.mul (PrimFloat.sub (px p) (px a)) dx)
                              (PrimFloat.mul (PrimFloat.sub (py p) (py a)) dy))
               len2 in
    if PrimFloat.leb t 0 then a
    else if PrimFloat.leb 1 t then b
    else mkPointD (PrimFloat.add (px a) (PrimFloat.mul t dx))
                  (PrimFloat.add (py a) (PrimFloat.mul t dy)).

(** Truncation of a double to an unsigned 32-bit integer. *)
Definition planar_double_to_uint32 (d : float) : Z :=
  match Prim2SF d with
  | S754_finite false m e =>
      to_uint32 (if 0 <=? e then Z.shiftl (Z.pos m) e else Z.shiftr (Z.pos m) (- e))
  | _ => 0
  end.

Definition planar : Externals := {|
  FromLatLon lat lon := mkPointD lon lat;
  YToLat y := y;
  XToLon x := x;
  DistanceOnEarth := planar_metres;
  MetresToXY := planar_MetresToXY;
  RectCenter := planar_RectCenter;
  IsPointInside := planar_IsPointInside;
  ProjectOnSegment := planar_ProjectOnSegment;
  GetDistanceM := planar_GetDistanceM;
  GetTotalDistanceM fp := path_length planar_metres (m_polyPoints fp);
  PolyMercatorDistanceFromBegin fp :=
    PrimFloat.add
      (path_length planar_length (vertices_between (m_polyPoints fp) 0 (m_ind (m_current fp))))
      (planar_length (GetPoint (m_polyPoints fp) (m_ind (m_current fp))) (m_pt (m_current fp)));
  CalculateMercatorDistanceAlongPath s e pts :=
    path_length planar_length (vertices_between pts s e);
  AlmostEqualULPs a b := PrimFloat.eqb a b;
  AlmostEqualULPsPoint p q := PrimFloat.eqb (px p) (px q) && PrimFloat.eqb (py p) (py q);
  AngleTo p q := 0%float;
  RadToDeg a := PrimFloat.mul a 0x1.ca5dc1a63c1f8p+5;
  AngleToBearing a := PrimFloat.sub 90 a;
  HasSpeed info := PrimFloat.leb 0 (m_speed info);
  SimplifyNearOptimal n pts eps := pts;
  double_to_uint32 := planar_double_to_uint32;
  TurnItem_default := mkTurnItem (2 ^ 32 - 1) 0 0 false 0 EmptyString EmptyString
|}.

(** ** Sample routes *)

Definition turn_at (idx : Z) : TurnItem :=
  mkTurnItem idx 2 0 false 0 EmptyString EmptyString.

Definition car_settings : RoutingSettings := mkRoutingSettings 50 true false.

(** A route over [pts] whose cursor stands on vertex [cursor]. *)
Definition route_of (pts : list PointD) (turns : list TurnItem) (times : list TTimeItem)
    (streets : list TStreetItem) (absent : gset string) (cursor : Z) : Route :=
  mkRoute "vehicle" car_settings EmptyString
    (mkFollowedPolyline pts (mkIter (GetPoint pts cursor) cursor true))
    (FollowedPolyline_of []) absent turns times streets 0%float.

(** [n] vertices going east, [metres] apart in the flat-earth instance. *)
Definition line_east (metres : float) (n : nat) : list PointD :=
  (fun i => mkPointD (PrimFloat.mul (uint32_to_double (Z.of_nat i))
                        (PrimFloat.div metres metres_per_unit)) 0)
    <$> seq 0 n.

(** Fifty vertices, 10 m apart. *)
Definition straight_line : list PointD := line_east 10 50.

(** Forty vertices, 10 m apart, with vertices 10 to 20 on one spot. *)
Definition stalled_line : list PointD :=
  line_east 10 10 ++ replicate 11 (mkPointD (PrimFloat.div 100 metres_per_unit) 0)
    ++ drop 11 (line_east 10 30).

Definition no_route : Route := route_of [] [] [] [] ∅ 0.

Definition main_street : list TStreetItem := [(0, EmptyString); (30, "Main St")].

(** The street table [main_street] on a line whose vertices are [metres]
    apart. *)
Definition route_streets (metres : float) : Route :=
  route_of (line_east metres 50) [] [] main_street ∅ 0.

Definition route_stalled : Route :=
  route_of stalled_line [] [(0, 0); (10, 60); (20, 150); (30, 200)] [] ∅ 15.

Definition three_turns : list TurnItem := [turn_at 5; turn_at 12; turn_at 40].

Definition route_turns (cursor : Z) : Route :=
  route_of straight_line three_turns [] [] ∅ cursor.

(** The vertex where the bracket that ends at position [it] of the time
    table starts: the previous checkpoint's, or 0 for the first bracket. *)
Definition bracket_start (times : list TTimeItem) (it : nat) : Z :=
  match it with
  | O => 0
  | S k => match times !! k with Some prev => prev.1 | None => 0 end
  end.

(** A route on [straight_line] whose cursor is the point ([x], 0), projected
    on the segment that starts at vertex [ind]. *)
Definition route_cursor (x : float) (ind : Z) : Route :=
  mkRoute "vehicle" car_settings EmptyString
    (mkFollowedPolyline straight_line (mkIter (mkPointD x 0) ind true))
    (FollowedPolyline_of []) ∅ [] [] [] 0%float.

(** A fix at latitude [lat] and longitude [lon], with an accuracy of 5 m,
    a speed of 10 m/s and a heading of 45 degrees. *)
Definition fix_at (lat lon timestamp : float) : GpsInfo :=
  mkGpsInfo lat lon 5 10 timestamp 45.

Definition no_match : RouteMatchingInfo := mkRouteMatchingInfo origin 0 0%float.

(** Three fixes along [straight_line]: near vertex 15, near vertex 20, and
    back near vertex 10. *)
Definition fix_near_15 : GpsInfo := fix_at 0x1.a36e2eb1c432dp-14 0x1.89374bc6a7efap-10 1.
Definition fix_near_20 : GpsInfo := fix_at 0 0x1.0624dd2f1a9fcp-9 2.
Definition fix_near_10 : GpsInfo := fix_at 0 0x1.0624dd2f1a9fcp-10 3.

(** The vertex index of the table entry before the current one in the loop
    of [GetTurnsDistances]: [formerTurnIndex]. *)
Definition former_index (prev : option TurnItem) : Z :=
  match prev with None => 0 | Some p => m_index p end.

(** Three points 10 m apart, a turn on the middle one, two time
    checkpoints, one street, one absent country. *)
Definition route_small : Route :=
  route_of (line_east 10 3) [turn_at 1] [(0, 0); (2, 20)] [(0, "A")] {[ "X" ]} 0.

(** The same geometry with neither turns nor times. *)
Definition route_bare : Route :=
  route_of (line_east 10 3) [] [] [(0, "A")] {[ "X" ]} 0.

(** [straight_line] with three turns and a time checkpoint for each. *)
Definition route_full : Route :=
  route_of straight_line three_turns [(0, 0); (10, 60); (20, 150); (30, 200)] [] ∅ 0.

(** The integer fields of a turn that the decoder reads with [GetInt]. *)
Definition int_fields (t : TurnItem) : Prop :=
  (- 2 ^ 31 ≤ m_index t < 2 ^ 31) ∧ (- 2 ^ 31 ≤ m_exitNum t < 2 ^ 31)
  ∧ (- 2 ^ 31 ≤ m_turn t < 2 ^ 31) ∧ (- 2 ^ 31 ≤ m_pedestrianTurn t < 2 ^ 31).

(** Rewrites the goal with the equations on turn indices at hand. *)
Ltac rewrite_turn_indices :=
  repeat match goal with
         | Heq : m_index ?t = _ |- _ => rewrite !Heq
         end.

(** The specification's timing example: checkpoints at vertices 0, 10 and
    20 after 0, 60 and 150 seconds, on [straight_line]. *)
Definition route_timed (cursor : Z) : Route :=
  route_of straight_line [] [(0, 0); (10, 60); (20, 150)] [] ∅ cursor.

(** ** Further functions of route.cpp *)

(** Modelled from the spec: a turn with its distance ([turns::TurnItemDist],
    declared in turns.hpp). *)
Record TurnItemDist := mkTurnItemDist { m_turnItem : TurnItem; m_distMeters : float }.

Section RouteLookahead.
Context `{Externals}.

(** [GetNextTurns]: [turns] is the caller's vector, [fresh] the
    default-constructed [TurnItemDist] the two locals start from. *)
Definition GetNextTurns (r : Route) (fresh : TurnItemDist) (turns : list TurnItemDist)
  : bool * list TurnItemDist :=
  let '(found, dist, turn) :=
    GetCurrentTurnDist r (m_distMeters fresh) (m_turnItem fresh) in
  if negb found then (false, turns)
  else
    let turns := [mkTurnItemDist turn dist] in
    let '(found', dist', turn') := GetNextTurn r in
    (true, if found' then turns ++ [mkTurnItemDist turn' dist'] else turns).

End RouteLookahead.


(** The value of [previousIndex] when the instructions loop of
    [GetMeRouteAsJson] reaches position [i] of the turn table. *)
Definition previous_index (turns : list TurnItem) (i : nat) : Z :=
  match i with
  | O => 0
  | S k => match turns !! k with Some t => m_index t | None => 0 end
  end.

(** Two fixes at the same place: same latitude, longitude and accuracy. *)
Definition same_place (a b : GpsInfo) : Prop :=
  m_latitude a = m_latitude b ∧ m_longitude a = m_longitude b
  ∧ m_horizontalAccuracy a = m_horizontalAccuracy b.

(** ** map/styled_point.cpp *)

Definition kSupportedColors : list string :=
  ["placemark-red"; "placemark-blue"; "placemark-purple"; "placemark-yellow";
   "placemark-pink"; "placemark-brown"; "placemark-green";
   "placemark-orange"; "3"; "4"; "5"; "6"; "7"; "8"; "9"; "10"; "10+"; "20+";
   "30+"; "40+"; "50+"; "100+"; "500+"; "1000+"; "bell"; "book"; "foto";
   "video"; "166"; "167"; "168"; "169"; "170"; "172"; "173"; "174"; "175";
   "176"; "177"; "178"; "179"; "180"; "181"; "182"; "183"; "184"; "185";
   "186"; "187"; "188"; "189"; "190"; "191"; "192"; "253"; "253"; "254";
   "255"; "256"; "257"; "259"; "260"; "261"; "262"; "263"; "264"; "265";
   "266"; "267"; "268"; "269"; "270"; "271"; "272"; "273"; "274"; "277";
   "best"].

(** The [for] loop of [GetSupportedStyle]: whether [s] equals an entry of the
    table. *)
Fixpoint style_in_table (s : string) (colors : list string) : bool :=
  match colors with
  | [] => false
  | c :: colors' => if String.eqb s c then true else style_in_table s colors'
  end.

(** [GetSupportedStyle]; the warning it logs for a style that is not
    recognized is left out. *)
Definition GetSupportedStyle (s context fallback : string) : string :=
  if string_empty s then fallback
  else if style_in_table s kSupportedColors then s
  else fallback.

Definition GetDefaultStyle : string :=
  match kSupportedColors with c :: _ => c | [] => EmptyString end.

(** ** More sample routes *)

(** [straight_line] with [three_turns], the cursor on vertex [cursor]. *)
Definition route_ahead (cursor : Z) : Route :=
  route_of straight_line three_turns [(0, 0); (10, 60); (20, 150); (30, 200)]
    [(0, "A"); (10, EmptyString); (30, "Main St")] ∅ cursor.

(** A polyline that stays on its first point for three vertices and then
    goes east. *)
Definition stuck_start : list PointD :=
  [mkPointD 0 0; mkPointD 0 0; mkPointD 0 0; mkPointD 1 0; mkPointD 2 0].

(** A route with more turns than time checkpoints. *)
Definition route_short_times : Route :=
  route_of straight_line three_turns [(0, 0); (10, 60)] [] ∅ 0.

(** A document with the member [name] replaced by [value]. *)
Definition with_member (name : string) (value : Json) (document : Json) : Json :=
  match document with
  | JObject members =>
      JObject ((name, value)
                 :: List.filter (fun m : string * Json => negb (String.eqb m.1 name)) members)
  | _ => document
  end.

(** The time checkpoints of [route_small] under the member names that
    [FromJson] reads: the time as [latitude], the vertex index as
    [longitude]. *)
Definition times_as_read : Json :=
  JArray [JObject [("latitude", JInt 0); ("longitude", JInt 0)];
          JObject [("latitude", JInt 20); ("longitude", JInt 2)]].

(** * Theorems *)

(** ** [std::upper_bound] on a partitioned range *)

Section UpperBoundFacts.
Context {V A : Type} (comp : V → A → bool) (val : V) (l : list A).

Lemma upper_bound_loop_spec (turns first len : nat) :
  partitioned comp val l →
  (len ≤ turns)%nat →
  (first + len ≤ length l)%nat →
  (∀ i x, (i < first)%nat → l !! i = Some x → comp val x = false) →
  (∀ i x, (first + len ≤ i)%nat → l !! i = Some x → comp val x = true) →
  let p := upper_bound_loop comp val l turns first len in
  (first ≤ p ≤ first + len)%nat ∧
  (∀ i x, (i < p)%nat → l !! i = Some x → comp val x = false) ∧
  (∀ i x, (p ≤ i)%nat → l !! i = Some x → comp val x = true).
Proof.
  intros Hpart. revert first len.
  induction turns as [|turns IH]; intros first len Hlen Hbound Hlow Hhigh.
  - assert (len = 0%nat) by lia. subst len. simpl.
    split; [lia|]. split; [exact Hlow|].
    intros i x Hi. apply Hhigh. lia.
  - cbn [upper_bound_loop]. destruct (Nat.eqb_spec len 0) as [->|Hpos].
    + split; [lia|]. split; [exact Hlow|].
      intros i x Hi. apply Hhigh. lia.
    + assert (Hhalf : (len / 2 < len)%nat) by (apply Nat.div_lt; lia).
      destruct (lookup_lt_is_Some_2 l (first + len / 2)) as [elem Helem]; [lia|].
      rewrite Helem. destruct (comp val elem) eqn:Hc.
      * destruct (IH first (len / 2)%nat) as (Hr & Hlo & Hhi); try lia; try exact Hlow.
        { intros i x Hi Hx. eapply (Hpart (first + len / 2)%nat i); eauto. }
        split; [lia|]. split; assumption.
      * destruct (IH (S (first + len / 2)) (len - len / 2 - 1)%nat) as (Hr & Hlo & Hhi);
          try lia.
        { intros i x Hi Hx. destruct (comp val x) eqn:Hcx; [|reflexivity].
          rewrite <- Hc. symmetry.
          eapply (Hpart i (first + len / 2)%nat); eauto. lia. }
        { intros i x Hi. apply Hhigh. lia. }
        split; [lia|]. split; assumption.
Qed.

Lemma first_index_unique (p : nat) :
  (p ≤ length l)%nat →
  (∀ i x, (i < p)%nat → l !! i = Some x → comp val x = false) →
  (∀ i x, (p ≤ i)%nat → l !! i = Some x → comp val x = true) →
  first_index (comp val) l = p.
Proof.
  revert p. induction l as [|a l' IH]; intros p Hp Hlo Hhi; simpl in *.
  - lia.
  - destruct p as [|p].
    + rewrite (Hhi 0%nat a); [reflexivity|lia|reflexivity].
    + rewrite (Hlo 0%nat a); [|lia|reflexivity].
      f_equal. apply IH; [lia| |].
      * intros i x Hi Hx. apply (Hlo (S i) x); [lia|exact Hx].
      * intros i x Hi Hx. apply (Hhi (S i) x); [lia|exact Hx].
Qed.

Lemma upper_bound_first_index :
  partitioned comp val l → upper_bound comp val l = first_index (comp val) l.
Proof.
  intros Hpart. unfold upper_bound.
  assert (Hlow : ∀ i x, (i < 0)%nat → l !! i = Some x → comp val x = false)
    by (intros i x Hi; lia).
  assert (Hhigh : ∀ i x, (0 + length l ≤ i)%nat → l !! i = Some x → comp val x = true).
  { intros i x Hi Hx. apply lookup_lt_Some in Hx. lia. }
  destruct (upper_bound_loop_spec (length l) 0 (length l) Hpart
              (Nat.le_refl _) (Nat.le_refl _) Hlow Hhigh) as (Hr & Hlo & Hhi).
  symmetry. apply first_index_unique; [lia|exact Hlo|exact Hhi].
Qed.

End UpperBoundFacts.

(** ** Maneuver table *)

Lemma ascending_turns_partitioned (turns : list TurnItem) (v : Z) :
  ascending (m_index <$> turns) →
  partitioned (fun (v : Z) (t : TurnItem) => v <? m_index t) v turns.
Proof.
  intros Hasc i j x y Hij Hx Hy Hc.
  destruct (decide (i = j)) as [->|Hne].
  - congruence.
  - assert (m_index x ≤ m_index y).
    { apply (Hasc i j); [lia| |]; rewrite list_lookup_fmap.
      - by rewrite Hx.
      - by rewrite Hy. }
    apply Z.ltb_lt in Hc. apply Z.ltb_lt. lia.
Qed.

Lemma current_turn_first_after (r : Route) :
  ascending (m_index <$> m_turns r) →
  GetCurrentTurn r =
    first_index (fun t => to_uint32 (vertexIndex r) <? m_index t) (m_turns r).
Proof.
  intros Hasc. unfold GetCurrentTurn.
  apply (upper_bound_first_index (fun (v : Z) (t : TurnItem) => v <? m_index t)).
  by apply ascending_turns_partitioned.
Qed.

Lemma ascending_5_12_40 : ascending [5; 12; 40].
Proof.
  intros i j a b Hij Ha Hb.
  destruct i as [|[|[|i]]], j as [|[|[|j]]]; simpl in *; simplify_eq; lia.
Qed.

(** C3 (as amended).  For every turn table ordered ascending by vertex
    index, [GetCurrentTurn] is the position of the first turn whose vertex
    index is strictly greater than the cursor's (narrowed to 32 bits).  For
    turns at [5; 12; 40] and the cursor on vertex 8 it is the turn at 12 and
    [GetNextTurn] gives the turn at 40; with the cursor beyond 40,
    [GetNextTurn] reports not-found. *)
Theorem C3_current_turn_strictly_after `{Externals} (r : Route) :
  ascending (m_index <$> m_turns r) →
  GetCurrentTurn r =
    first_index (fun t => to_uint32 (vertexIndex r) <? m_index t) (m_turns r)
  ∧ (m_index <$> m_turns r = [5; 12; 40] → vertexIndex r = 8 →
       m_index <$> (m_turns r !! GetCurrentTurn r) = Some 12
       ∧ ∃ d t, GetNextTurn r = (true, d, t) ∧ m_index t = 40)
  ∧ (m_index <$> m_turns r = [5; 12; 40] → 40 < vertexIndex r < 2 ^ 32 →
       ∃ d t, GetNextTurn r = (false, d, t)).
Proof.
  intros Hasc. pose proof (current_turn_first_after r Hasc) as Hcur.
  split; [exact Hcur|]. split.
  - intros Hidx Hv. unfold GetNextTurn. rewrite Hcur, Hv.
    destruct (m_turns r) as [|t1 [|t2 [|t3 [|t4 ts]]]]; simplify_eq/=.
    rewrite_turn_indices. change (to_uint32 8) with 8. cbn.
    split; [congruence|]. eauto.
  - intros Hidx Hv. unfold GetNextTurn. rewrite Hcur.
    assert (Hcast : to_uint32 (vertexIndex r) = vertexIndex r)
      by (unfold to_uint32; apply Z.mod_small; lia).
    rewrite Hcast.
    destruct (m_turns r) as [|t1 [|t2 [|t3 [|t4 ts]]]]; simplify_eq/=.
    rewrite_turn_indices.
    assert (H5 : (vertexIndex r <? 5) = false) by (apply Z.ltb_ge; lia).
    assert (H12 : (vertexIndex r <? 12) = false) by (apply Z.ltb_ge; lia).
    assert (H40 : (vertexIndex r <? 40) = false) by (apply Z.ltb_ge; lia).
    rewrite H5, H12, H40. simpl. eauto.
Qed.

Section C3_on_planar.
#[local] Existing Instance planar.

Lemma C3_current_turn_strictly_after_witness :
  ascending (m_index <$> m_turns (route_turns 8))
  ∧ GetCurrentTurn (route_turns 8) = 1%nat
  ∧ m_index <$> (m_turns (route_turns 8) !! GetCurrentTurn (route_turns 8)) = Some 12
  ∧ (∃ d t, GetNextTurn (route_turns 8) = (true, d, t) ∧ m_index t = 40)
  ∧ ∃ d t, GetNextTurn (route_turns 41) = (false, d, t).
Proof.
  pose proof (C3_current_turn_strictly_after (route_turns 8) ascending_5_12_40)
    as (H8 & Hex & _).
  pose proof (C3_current_turn_strictly_after (route_turns 41) ascending_5_12_40)
    as (_ & _ & Hbeyond).
  split; [exact ascending_5_12_40|].
  split; [rewrite H8; reflexivity|].
  destruct (Hex eq_refl eq_refl) as [Hcur Hnext].
  split; [exact Hcur|]. split; [exact Hnext|].
  apply Hbeyond; [reflexivity|]. unfold vertexIndex. simpl. lia.
Defined.

(** C3, as stated, fails: with turns at [5; 12; 40] and the cursor on vertex
    12, [GetCurrentTurn] is the turn at 40 (position 2), while the first turn
    whose vertex index is at least 12 is the one at 12 (position 1). *)
Lemma C3_counterexample :
  ¬ (∀ r : Route, m_turns r ≠ [] → ascending (m_index <$> m_turns r) →
       GetCurrentTurn r = spec_CurrentTurn (m_turns r) (vertexIndex r)).
Proof.
  intros Hclaim.
  specialize (Hclaim (route_turns 12)).
  assert (Hne : m_turns (route_turns 12) ≠ []) by discriminate.
  specialize (Hclaim Hne ascending_5_12_40).
  vm_compute in Hclaim. discriminate.
Qed.

End C3_on_planar.

(** ** Empty tables *)

(** C9.  With an empty time table or an empty polyline
    [GetCurrentTimeToEndSec] is 0; with an empty turn table
    [GetCurrentTurn(distance, turn)] and [GetNextTurn] return false; with an
    empty street table [GetCurrentStreetNameIterAfter] is the end of the
    table and the current street name is empty. *)
Theorem C9_empty_tables `{Externals} (r : Route) :
  (m_times r = [] ∨ polyPoints r = [] → GetCurrentTimeToEndSec r = 0)
  ∧ (m_turns r = [] →
       (∀ d t, GetCurrentTurnDist r d t = (false, d, t))
       ∧ GetNextTurn r = (false, 0%float, TurnItem_default))
  ∧ (m_streets r = [] →
       (∀ iter, GetCurrentStreetNameIterAfter (m_streets r) iter
                = Some (length (m_streets r)))
       ∧ GetCurrentStreetName r = Some EmptyString).
Proof.
  split; [|split].
  - unfold GetCurrentTimeToEndSec, GetCurrentTimeToEndSec_with.
    intros [Ht|Hp].
    + by rewrite Ht.
    + rewrite Hp. by destruct (m_times r).
  - intros Ht. split.
    + intros d t. unfold GetCurrentTurnDist, GetCurrentTurn. by rewrite Ht.
    + unfold GetNextTurn, GetCurrentTurn. by rewrite Ht.
  - intros Hs. split.
    + intros iter. by rewrite Hs.
    + unfold GetCurrentStreetName. by rewrite Hs.
Qed.

Section C9_on_planar.
#[local] Existing Instance planar.

Lemma C9_empty_tables_witness :
  GetCurrentTimeToEndSec no_route = 0
  ∧ GetCurrentTurnDist no_route 7%float (turn_at 3) = (false, 7%float, turn_at 3)
  ∧ GetNextTurn no_route = (false, 0%float, TurnItem_default)
  ∧ GetCurrentStreetNameIterAfter (m_streets no_route) (GetCurrentIter no_route) = Some 0%nat
  ∧ GetCurrentStreetName no_route = Some EmptyString.
Proof.
  destruct (C9_empty_tables no_route) as (Htime & Hturn & Hstreet).
  destruct (Hturn eq_refl) as [Hcur Hnext].
  destruct (Hstreet eq_refl) as [Hiter Hname].
  split; [apply Htime; left; reflexivity|].
  split; [apply Hcur|].
  split; [exact Hnext|].
  split; [apply Hiter|exact Hname].
Defined.

End C9_on_planar.

(** ** Street table *)

(** C10.  On a street table of exactly one entry the scan of
    [GetCurrentStreetNameIterAfter] starts with its iterator at position 1,
    which is the end of the table, with nothing left to read; the loop
    condition then reads [curIter->first] there, and the function has no
    defined result, whatever the cursor. *)
Theorem C10_single_entry_reads_past_end (streets : list TStreetItem) (iter : Iter) :
  length streets = 1%nat →
  GetCurrentStreetNameIterAfter streets iter
    = street_scan (m_ind iter) (drop 1 streets) 0%nat 1%nat
  ∧ 1%nat = length streets
  ∧ drop 1 streets = []
  ∧ GetCurrentStreetNameIterAfter streets iter = None.
Proof.
  intros Hlen. destruct streets as [|e [|e' rest]]; simplify_eq/=. done.
Qed.

Lemma C10_single_entry_reads_past_end_witness :
  GetCurrentStreetNameIterAfter [(0, "Main St")] (mkIter origin 0 true) = None.
Proof.
  apply (C10_single_entry_reads_past_end [(0, "Main St")] (mkIter origin 0 true)).
  reflexivity.
Defined.

Lemma street_scan_past_all (ind : Z) (rest : list TStreetItem) (prev cur : nat) :
  rest ≠ [] →
  Forall (fun e : TStreetItem => e.1 < ind) rest →
  street_scan ind rest prev cur = Some (cur + length rest)%nat.
Proof.
  revert prev cur. induction rest as [|c rest IH]; intros prev cur Hne Hall; [done|].
  apply Forall_cons in Hall as [Hc Hall]. simpl.
  destruct (Z.ltb_spec c.1 ind); [|lia].
  destruct rest as [|c' rest'].
  - simpl. f_equal. lia.
  - rewrite (IH (S prev) (S cur)); [|done|done]. f_equal. simpl. lia.
Qed.

(** When some entry of [rest] starts at or after [ind], the scan stops on the
    first such entry [c], at offset [k], and answers the position of [c] on
    an exact match, the position before it otherwise. *)
Lemma street_scan_stops (ind : Z) (rest : list TStreetItem) (prev cur : nat) :
  ¬ Forall (fun e : TStreetItem => e.1 < ind) rest →
  ∃ (k : nat) (c : TStreetItem),
    rest !! k = Some c ∧ ind ≤ c.1
    ∧ (∀ j e, (j < k)%nat → rest !! j = Some e → e.1 < ind)
    ∧ street_scan ind rest prev cur
      = Some (if c.1 =? ind then (cur + k)%nat else (prev + k)%nat).
Proof.
  revert prev cur. induction rest as [|c rest IH]; intros prev cur Hnot.
  - destruct Hnot. constructor.
  - simpl. destruct (Z.ltb_spec c.1 ind) as [Hlt|Hge].
    + assert (Hrest : ¬ Forall (fun e : TStreetItem => e.1 < ind) rest).
      { intros Hall. apply Hnot. by constructor. }
      destruct (IH (S prev) (S cur) Hrest) as (k & c' & Hk & Hc' & Hbefore & Hscan).
      destruct rest as [|c2 rest2]; [done|].
      exists (S k), c'. split; [exact Hk|]. split; [exact Hc'|]. split.
      * intros [|j] e Hj He; simplify_eq/=; [done|]. apply (Hbefore j); [lia|done].
      * rewrite Hscan. f_equal.
        replace (cur + S k)%nat with (S cur + k)%nat by lia.
        replace (prev + S k)%nat with (S prev + k)%nat by lia. done.
    + exists 0%nat, c. split; [done|]. split; [lia|]. split.
      * intros j e Hj. lia.
      * by rewrite !Nat.add_0_r.
Qed.

Section StreetFacts.
Context `{Externals}.

Lemma street_name_loop_find (r : Route) (idx : Z) (rest : list TStreetItem) :
  street_name_loop (m_poly r) (GetIterToIndex (m_poly r) idx) rest =
  match List.find (fun e : TStreetItem => negb (string_empty e.2)) rest with
  | None => EmptyString
  | Some e =>
      if PrimFloat.ltb
           (GetDistanceM (polyPoints r) (GetIterToIndex (m_poly r) idx)
              (GetIterToIndex (m_poly r) (Z.max e.1 (to_uint32 idx))))
           kSteetNameLinkMeters
      then e.2 else EmptyString
  end.
Proof.
  induction rest as [|item rest IH]; [done|].
  simpl. destruct (string_empty item.2); simpl; [exact IH|done].
Qed.

Lemma street_after_from (r : Route) (idx : Z) (start : nat) :
  GetCurrentStreetNameIterAfter (m_streets r) (GetIterToIndex (m_poly r) idx) = Some start →
  GetStreetNameAfterIdx r idx = Some (spec_lookahead r idx start).
Proof.
  intros Hstart. unfold GetStreetNameAfterIdx, spec_lookahead. rewrite Hstart. simpl.
  destruct (Nat.eqb_spec start (length (m_streets r))) as [->|Hne].
  - by rewrite drop_all.
  - by rewrite street_name_loop_find.
Qed.

End StreetFacts.

Lemma ascending_below_last (streets : list TStreetItem) (e x : TStreetItem) :
  strictly_ascending (fst <$> streets) →
  last streets = Some e → x ∈ streets → x.1 ≤ e.1.
Proof.
  intros Hasc Hlast Hx. rewrite last_lookup in Hlast.
  apply list_elem_of_lookup in Hx as [i Hi].
  pose proof (lookup_lt_Some _ _ _ Hi) as Hlt.
  destruct (decide (i = pred (length streets))) as [->|Hne].
  - rewrite Hlast in Hi. by simplify_eq.
  - assert (x.1 < e.1); [|lia].
    apply (Hasc i (pred (length streets))); [lia| |]; rewrite list_lookup_fmap.
    + by rewrite Hi.
    + by rewrite Hlast.
Qed.

(** C7 (as amended).  For every street table ordered strictly ascending by
    vertex index that has no entry or at least two, and every index: when the
    index lies past the start of the last entry (or the table is empty) the
    name is empty; otherwise the scan starts at the entry whose range
    contains the index (the first entry when the index precedes it), goes
    through the empty names, and gives the first non-empty name exactly when
    its polyline distance from the query position is below
    [kSteetNameLinkMeters] (400 m), the empty string otherwise. *)
Theorem C7_street_lookahead `{Externals} (r : Route) (idx : Z) :
  strictly_ascending (fst <$> m_streets r) →
  length (m_streets r) ≠ 1%nat →
  match last (m_streets r) with
  | None => GetStreetNameAfterIdx r idx = Some EmptyString
  | Some e =>
      if e.1 <? idx then GetStreetNameAfterIdx r idx = Some EmptyString
      else
        ∃ start : nat,
          GetCurrentStreetNameIterAfter (m_streets r) (GetIterToIndex (m_poly r) idx)
            = Some start
          ∧ (range_contains (m_streets r) start idx
             ∨ (start = 0%nat ∧ ∃ e0, m_streets r !! 0%nat = Some e0 ∧ idx < e0.1))
          ∧ GetStreetNameAfterIdx r idx = Some (spec_lookahead r idx start)
  end.
Proof.
  intros Hasc Hlen.
  destruct (last (m_streets r)) as [e|] eqn:Hlast.
  - destruct (m_streets r) as [|e0 rest] eqn:Hs; [done|].
    assert (Hrest : rest ≠ []) by (intros ->; done).
    destruct (Z.ltb_spec e.1 idx) as [Hpast|Hin].
    + assert (Hall : Forall (fun x : TStreetItem => x.1 < idx) rest).
      { apply Forall_forall. intros x Hx.
        assert (x.1 ≤ e.1); [|lia].
        apply (ascending_below_last (e0 :: rest)); [done|done|].
        by apply list_elem_of_further. }
      unfold GetStreetNameAfterIdx. rewrite Hs. simpl.
      rewrite (street_scan_past_all _ _ _ _ Hrest Hall). simpl.
      by rewrite Nat.eqb_refl.
    + assert (Hnot : ¬ Forall (fun x : TStreetItem => x.1 < idx) rest).
      { intros Hall. rewrite Forall_forall in Hall.
        assert (He : e ∈ rest).
        { rewrite last_lookup in Hlast. simpl in Hlast.
          destruct rest as [|e1 rest1]; [done|].
          apply list_elem_of_lookup. exists (length rest1).
          simpl in Hlast. exact Hlast. }
        specialize (Hall e He). simpl in Hall. lia. }
      destruct (street_scan_stops idx rest 0 1 Hnot) as (k & c & Hk & Hc & Hbefore & Hscan).
      assert (Hiter : GetCurrentStreetNameIterAfter (e0 :: rest)
                        (GetIterToIndex (m_poly r) idx)
                      = Some (if c.1 =? idx then (1 + k)%nat else (0 + k)%nat))
        by exact Hscan.
      eexists. split; [exact Hiter|]. split.
      * destruct (Z.eqb_spec c.1 idx) as [Heq|Hneq].
        -- left. exists c. split; [exact Hk|]. split; [lia|].
           intros n Hn.
           assert (c.1 < n.1); [|lia].
           apply (Hasc (S k) (S (S k))); [lia| |]; rewrite list_lookup_fmap.
           ++ simpl. by rewrite Hk.
           ++ change ((e0 :: rest) !! S (1 + k)) with (rest !! S k) in Hn.
              simpl. by rewrite Hn.
        -- destruct k as [|k'].
           ++ simpl. destruct (Z.le_gt_cases e0.1 idx) as [Hle|Hgt].
              ** left. exists e0. split; [done|]. split; [done|].
                 intros n Hn. simpl in Hn. simplify_eq. lia.
              ** right. split; [done|]. exists e0. split; [done|lia].
           ++ left.
              destruct (lookup_lt_is_Some_2 rest k') as [e' He'].
              { apply lookup_lt_Some in Hk. lia. }
              exists e'. split; [exact He'|]. split.
              ** assert (e'.1 < idx) by (apply (Hbefore k'); [lia|done]). lia.
              ** intros n Hn. simpl in Hn. simplify_eq. lia.
      * apply street_after_from. rewrite Hs. exact Hiter.
  - destruct (m_streets r) as [|e0 rest] eqn:Hs.
    + unfold GetStreetNameAfterIdx. by rewrite Hs.
    + rewrite last_lookup in Hlast. simpl in Hlast.
      apply lookup_ge_None in Hlast. simpl in Hlast. lia.
Qed.

Section C7_on_planar.
#[local] Existing Instance planar.

Lemma strictly_ascending_0_30 : strictly_ascending [0; 30].
Proof.
  intros i j a b Hij Ha Hb.
  destruct i as [|[|i]], j as [|[|j]]; simpl in *; simplify_eq; lia.
Qed.

Lemma C7_street_lookahead_witness :
  strictly_ascending (fst <$> m_streets (route_streets 15))
  ∧ length (m_streets (route_streets 15)) ≠ 1%nat
  ∧ ∃ start : nat,
      GetCurrentStreetNameIterAfter (m_streets (route_streets 15))
        (GetIterToIndex (m_poly (route_streets 15)) 0) = Some start
      ∧ (range_contains (m_streets (route_streets 15)) start 0
         ∨ (start = 0%nat
            ∧ ∃ e0, m_streets (route_streets 15) !! 0%nat = Some e0 ∧ 0 < e0.1))
      ∧ GetStreetNameAfterIdx (route_streets 15) 0
        = Some (spec_lookahead (route_streets 15) 0 start).
Proof.
  assert (Hlen : length (m_streets (route_streets 15)) ≠ 1%nat) by (simpl; lia).
  split; [exact strictly_ascending_0_30|]. split; [exact Hlen|].
  exact (C7_street_lookahead (route_streets 15) 0 strictly_ascending_0_30 Hlen).
Defined.

(** The specification's own example: [main_street] with 350 m, then 450 m,
    of polyline between vertex 0 and vertex 30; and the same table asked at
    its boundary and just before it. *)
Example street_after_350m :
  GetStreetNameAfterIdx (route_streets (PrimFloat.div 350 30)) 0 = Some "Main St".
Proof. vm_compute. reflexivity. Qed.

Example street_after_450m :
  GetStreetNameAfterIdx (route_streets 15) 0 = Some EmptyString.
Proof. vm_compute. reflexivity. Qed.

Example street_after_at_boundary :
  GetStreetNameAfterIdx (route_streets 10) 30 = Some "Main St".
Proof. vm_compute. reflexivity. Qed.

(** C7, as stated, fails: in [main_street] the range of the entry
    (30, "Main St") contains index 35 and the name is at distance 0 from the
    query position, yet [GetStreetNameAfterIdx] gives the empty string:
    [GetCurrentStreetNameIterAfter] runs off the table and returns its end. *)
Lemma C7_counterexample :
  ¬ (∀ (r : Route) (idx : Z) (start : nat),
       range_contains (m_streets r) start idx →
       GetStreetNameAfterIdx r idx = Some (spec_lookahead r idx start)).
Proof.
  intros Hclaim.
  specialize (Hclaim (route_streets 10) 35 1%nat).
  assert (Hrange : range_contains (m_streets (route_streets 10)) 1 35).
  { exists (30, "Main St"). split; [reflexivity|]. split; [simpl; lia|].
    intros n Hn. discriminate. }
  specialize (Hclaim Hrange). vm_compute in Hclaim. discriminate.
Qed.

End C7_on_planar.

(** ** Timing table *)

Lemma ascending_times_partitioned (times : list TTimeItem) (v : Z) :
  ascending (fst <$> times) →
  partitioned (fun (v : Z) (item : TTimeItem) => v <? item.1) v times.
Proof.
  intros Hasc i j x y Hij Hx Hy Hc.
  destruct (decide (i = j)) as [->|Hne].
  - congruence.
  - assert (x.1 ≤ y.1).
    { apply (Hasc i j); [lia| |]; rewrite list_lookup_fmap.
      - by rewrite Hx.
      - by rewrite Hy. }
    apply Z.ltb_lt in Hc. apply Z.ltb_lt. lia.
Qed.

(** The bracket of the cursor is the one [upper_bound] finds. *)
Lemma bracket_upper_bound (times : list TTimeItem) (v : Z) (it : nat) (next : TTimeItem) :
  ascending (fst <$> times) →
  times !! it = Some next →
  v < next.1 →
  (∀ k prev, it = S k → times !! k = Some prev → prev.1 ≤ v) →
  upper_bound (fun (v : Z) (item : TTimeItem) => v <? item.1) v times = it.
Proof.
  intros Hasc Hnext Hv Hprev.
  rewrite (upper_bound_first_index _ _ _ (ascending_times_partitioned times v Hasc)).
  apply (first_index_unique (fun (v : Z) (item : TTimeItem) => v <? item.1)).
  - apply lookup_lt_Some in Hnext. lia.
  - intros i x Hi Hx. apply Z.ltb_ge.
    destruct it as [|k]; [lia|].
    destruct (lookup_lt_is_Some_2 times k) as [prev Hk].
    { apply lookup_lt_Some in Hnext. lia. }
    pose proof (Hprev k prev eq_refl Hk).
    destruct (decide (i = k)) as [->|Hne]; [by simplify_eq|].
    assert (x.1 ≤ prev.1); [|lia].
    apply (Hasc i k); [lia| |]; rewrite list_lookup_fmap.
    + by rewrite Hx.
    + by rewrite Hk.
  - intros i x Hi Hx. apply Z.ltb_lt.
    destruct (decide (i = it)) as [->|Hne]; [by simplify_eq|].
    assert (next.1 ≤ x.1); [|lia].
    apply (Hasc it i); [lia| |]; rewrite list_lookup_fmap.
    + by rewrite Hnext.
    + by rewrite Hx.
Qed.

(** C6.  With a non-empty time table and polyline, when the cursor lies in
    the bracket that ends at checkpoint [next] and the polyline distance of
    the bracket is numerically zero, [GetCurrentTimeToEndSec] is the total
    time minus the cumulative seconds of [next], in 32-bit unsigned
    arithmetic; the result is the same whatever the division of doubles
    does, so no division takes part in it.  On a table whose seconds are
    ascending 32-bit values the subtraction does not wrap. *)
Theorem C6_zero_length_bracket `{Externals} (r : Route) (it : nat) (next : TTimeItem) :
  polyPoints r ≠ [] →
  ascending (fst <$> m_times r) →
  m_times r !! it = Some next →
  vertexIndex r < next.1 →
  (∀ k prev, it = S k → m_times r !! k = Some prev → prev.1 ≤ vertexIndex r) →
  AlmostEqualULPs (distFn r (bracket_start (m_times r) it) next.1) 0 = true →
  (∀ fdiv, GetCurrentTimeToEndSec_with fdiv r = to_uint32 (GetTotalTimeSec r - next.2))
  ∧ GetCurrentTimeToEndSec r = to_uint32 (GetTotalTimeSec r - next.2)
  ∧ (ascending (snd <$> m_times r) →
     Forall (fun item : TTimeItem => 0 ≤ item.2 < 2 ^ 32) (m_times r) →
     GetCurrentTimeToEndSec r = GetTotalTimeSec r - next.2).
Proof.
  intros Hpoly Hasc Hnext Hv Hprev Hzero.
  assert (Hwith : ∀ fdiv,
             GetCurrentTimeToEndSec_with fdiv r = to_uint32 (GetTotalTimeSec r - next.2)).
  { intros fdiv. unfold GetCurrentTimeToEndSec_with.
    destruct (m_times r) as [|t0 ts] eqn:Ht; [done|].
    destruct (Z.eqb_spec (GetSize (polyPoints r)) 0) as [Hsz|_].
    { unfold GetSize in Hsz. destruct (polyPoints r); [done|simpl in Hsz; lia]. }
    fold (vertexIndex r).
    rewrite (bracket_upper_bound (t0 :: ts) (vertexIndex r) it next Hasc Hnext Hv Hprev).
    rewrite Hnext.
    destruct it as [|k].
    - cbn [bracket_start] in Hzero. by rewrite Hzero.
    - replace (S k - 1)%nat with k by lia. cbn [bracket_start] in Hzero.
      destruct ((t0 :: ts) !! k); by rewrite Hzero. }
  split; [exact Hwith|]. split; [apply Hwith|].
  intros Hsec Hrange. unfold GetCurrentTimeToEndSec. rewrite Hwith.
  unfold to_uint32. apply Z.mod_small.
  unfold GetTotalTimeSec.
  destruct (last (m_times r)) as [final|] eqn:Hlast.
  - rewrite last_lookup in Hlast.
    rewrite Forall_forall in Hrange.
    assert (Hfin : 0 ≤ final.2 < 2 ^ 32).
    { apply (Hrange final). apply list_elem_of_lookup. eauto. }
    assert (Hnx : 0 ≤ next.2 < 2 ^ 32).
    { apply (Hrange next). apply list_elem_of_lookup. eauto. }
    assert (next.2 ≤ final.2); [|lia].
    pose proof (lookup_lt_Some _ _ _ Hnext) as Hlt.
    destruct (decide (it = pred (length (m_times r)))) as [->|Hne].
    + rewrite Hlast in Hnext. simplify_eq. lia.
    + apply (Hsec it (pred (length (m_times r)))); [lia| |]; rewrite list_lookup_fmap.
      * by rewrite Hnext.
      * by rewrite Hlast.
  - rewrite last_lookup in Hlast. apply lookup_ge_None in Hlast.
    apply lookup_lt_Some in Hnext. lia.
Qed.

Section C6_on_planar.
#[local] Existing Instance planar.

Lemma ascending_0_10_20_30 : ascending [0; 10; 20; 30].
Proof.
  intros i j a b Hij Ha Hb.
  destruct i as [|[|[|[|i]]]], j as [|[|[|[|j]]]]; simpl in *; simplify_eq; lia.
Qed.

Lemma ascending_0_60_150_200 : ascending [0; 60; 150; 200].
Proof.
  intros i j a b Hij Ha Hb.
  destruct i as [|[|[|[|i]]]], j as [|[|[|[|j]]]]; simpl in *; simplify_eq; lia.
Qed.

Lemma C6_zero_length_bracket_witness :
  (∀ fdiv, GetCurrentTimeToEndSec_with fdiv route_stalled = 50)
  ∧ GetCurrentTimeToEndSec route_stalled = 50.
Proof.
  assert (Hpoly : polyPoints route_stalled ≠ []).
  { intros Heq. vm_compute in Heq. discriminate. }
  assert (Hnext : m_times route_stalled !! 2%nat = Some (20, 150)) by reflexivity.
  assert (Hcur : vertexIndex route_stalled = 15) by reflexivity.
  assert (Hv : vertexIndex route_stalled < (20, 150).1) by (rewrite Hcur; simpl; lia).
  assert (Hprev : ∀ k prev, 2%nat = S k → m_times route_stalled !! k = Some prev →
                            prev.1 ≤ vertexIndex route_stalled).
  { intros k prev Hk Hp. injection Hk as <-. simpl in Hp.
    injection Hp as <-. rewrite Hcur. simpl. lia. }
  assert (Hzero : AlmostEqualULPs
                    (distFn route_stalled (bracket_start (m_times route_stalled) 2) (20, 150).1)
                    0 = true)
    by (vm_compute; reflexivity).
  destruct (C6_zero_length_bracket route_stalled 2 (20, 150)
              Hpoly ascending_0_10_20_30 Hnext Hv Hprev Hzero) as (Hwith & _ & Hexact).
  split.
  - intros fdiv. rewrite Hwith. reflexivity.
  - rewrite Hexact; [reflexivity|exact ascending_0_60_150_200|].
    repeat constructor; simpl; lia.
Defined.

(** The specification's timing example: at vertex 15 the time to the end is
    strictly between the one at vertex 20 and the one at vertex 10. *)
Example time_to_end_interpolated :
  GetCurrentTimeToEndSec (route_timed 10) = 90
  ∧ GetCurrentTimeToEndSec (route_timed 15) = 45
  ∧ GetCurrentTimeToEndSec (route_timed 20) = 0.
Proof. vm_compute. repeat split. Qed.

End C6_on_planar.

(** ** Matching a fix to the route *)

(** C1.  On a route with a valid polyline, [MatchLocationToRoute] snaps the
    fix exactly when the distance from the fix to the cursor point is below
    [m_matchingThresholdM]: latitude and longitude become those of the
    cursor point and the matching info receives the cursor point, its vertex
    index and the cumulative planar distance from the beginning of the
    polyline to the cursor, as the polyline tracker measures it
    ([FollowedPolyline::GetMercatorDistanceFromBegin], here
    [PolyMercatorDistanceFromBegin] of the route's polyline); accuracy,
    speed and timestamp stay as they were.  When the distance is not below
    the threshold (at or above it, or not a number) the fix and the matching
    info are left as they were. *)
Theorem C1_match_below_threshold `{Externals} (r : Route) (location : GpsInfo)
    (routeMatchingInfo : RouteMatchingInfo) :
  IsValid (m_poly r) = true →
  let iter := GetCurrentIter r in
  let distFromRouteM :=
    DistanceOnEarth (m_pt iter) (FromLatLon (m_latitude location) (m_longitude location)) in
  let below := PrimFloat.ltb distFromRouteM (m_matchingThresholdM (m_routingSettings r)) in
  let result := MatchLocationToRoute r location routeMatchingInfo in
  (below = true →
     m_latitude result.1 = YToLat (py (m_pt iter))
     ∧ m_longitude result.1 = XToLon (px (m_pt iter))
     ∧ m_horizontalAccuracy result.1 = m_horizontalAccuracy location
     ∧ m_speed result.1 = m_speed location
     ∧ m_timestamp result.1 = m_timestamp location
     ∧ m_matchedPosition result.2 = m_pt iter
     ∧ m_indexInRoute result.2 = m_ind iter
     ∧ m_distanceFromBegin result.2 = PolyMercatorDistanceFromBegin (m_poly r))
  ∧ (below = false → result = (location, routeMatchingInfo)).
Proof.
  intros Hvalid iter distFromRouteM below result.
  subst result. unfold MatchLocationToRoute. rewrite Hvalid.
  fold iter. fold distFromRouteM. fold below.
  split; intros Hbelow; rewrite Hbelow; simpl; auto 10.
Qed.

Section C1_on_planar.
#[local] Existing Instance planar.

Lemma C1_match_below_threshold_witness :
  (* 30 m off the cursor, threshold 50 m: snapped *)
  (let result :=
     MatchLocationToRoute (route_cursor 0x1.0624dd2f1a9fcp-10 10)
       (fix_at 0x1.3a92a30553261p-12 0x1.0624dd2f1a9fcp-10 1) no_match in
   m_latitude result.1 = 0%float
   ∧ m_longitude result.1 = 0x1.0624dd2f1a9fcp-10%float
   ∧ m_horizontalAccuracy result.1 = 5%float
   ∧ m_speed result.1 = 10%float
   ∧ m_timestamp result.1 = 1%float
   ∧ m_matchedPosition result.2 = mkPointD 0x1.0624dd2f1a9fcp-10 0
   ∧ m_indexInRoute result.2 = 10
   (* ten segments of 10 m each, summed in binary64 *)
   ∧ m_distanceFromBegin result.2 = 0x1.0624dd2f1a9fdp-10%float)
  (* 70 m off: left alone *)
  ∧ MatchLocationToRoute (route_cursor 0x1.0624dd2f1a9fcp-10 10)
      (fix_at 0x1.6f0068db8bac7p-11 0x1.0624dd2f1a9fcp-10 1) no_match
    = (fix_at 0x1.6f0068db8bac7p-11 0x1.0624dd2f1a9fcp-10 1, no_match).
Proof.
  split.
  - pose proof (C1_match_below_threshold (route_cursor 0x1.0624dd2f1a9fcp-10 10)
                  (fix_at 0x1.3a92a30553261p-12 0x1.0624dd2f1a9fcp-10 1) no_match eq_refl)
      as [Hsnap _].
    destruct (Hsnap ltac:(vm_compute; reflexivity))
      as (Hlat & Hlon & Hacc & Hspeed & Htime & Hpos & Hind & Hdist).
    cbv zeta. rewrite Hlat, Hlon, Hacc, Hspeed, Htime, Hpos, Hind, Hdist.
    repeat split; vm_compute; reflexivity.
  - apply (C1_match_below_threshold (route_cursor 0x1.0624dd2f1a9fcp-10 10)
             (fix_at 0x1.6f0068db8bac7p-11 0x1.0624dd2f1a9fcp-10 1) no_match eq_refl).
    vm_compute. reflexivity.
Defined.

End C1_on_planar.

(** ** The cursor under successive fixes *)

Section CursorFacts.
Context `{Externals}.

Lemma closest_in (score : Iter → float) (cands : list Iter) (it : Iter) :
  closest score cands = Some it → it ∈ cands.
Proof.
  unfold closest.
  assert (Hgen : ∀ best,
             fold_left
               (fun best it =>
                  match best with
                  | None => Some it
                  | Some b => if PrimFloat.ltb (score it) (score b) then Some it else best
                  end) cands best = Some it →
             best = Some it ∨ it ∈ cands).
  { induction cands as [|c cands IH]; intros best Hfold; simpl in Hfold.
    - by left.
    - destruct (IH _ Hfold) as [Hstep|Hin].
      + destruct best as [b|].
        * destruct (PrimFloat.ltb (score c) (score b)).
          -- right. simplify_eq. apply list_elem_of_here.
          -- by left.
        * right. simplify_eq. apply list_elem_of_here.
      + right. by apply list_elem_of_further. }
  intros Hc. by destruct (Hgen None Hc).
Qed.

Lemma segment_candidate_index (fp : FollowedPolyline) (rect : RectD) (i : nat) (it : Iter) :
  segment_candidate fp rect i = Some it →
  m_ind it = Z.of_nat i ∧ (S i < length (m_polyPoints fp))%nat.
Proof.
  unfold segment_candidate. intros Hc.
  destruct (m_polyPoints fp !! i) as [a|] eqn:Ha; [|done].
  destruct (m_polyPoints fp !! S i) as [b|] eqn:Hb; [|done].
  apply lookup_lt_Some in Hb.
  destruct (IsPointInside rect (ProjectOnSegment a b (RectCenter rect))); by simplify_eq.
Qed.

(** One update keeps the points, does not move the cursor's vertex index
    back, and keeps it below the number of points. *)
Lemma update_projection_cursor (fp : FollowedPolyline) (rect : RectD) (pred : float) :
  let fp' := (UpdateProjectionByPrediction fp rect pred).1 in
  m_polyPoints fp' = m_polyPoints fp
  ∧ m_ind (m_current fp) ≤ m_ind (m_current fp')
  ∧ (m_ind (m_current fp) < GetSize (m_polyPoints fp) →
     m_ind (m_current fp') < GetSize (m_polyPoints fp)).
Proof.
  unfold UpdateProjectionByPrediction.
  match goal with |- context [closest ?sc ?cs] => destruct (closest sc cs) as [it|] eqn:Hc end.
  - simpl. apply closest_in in Hc.
    apply list_elem_of_omap in Hc as (i & Hi & Hcand).
    apply elem_of_seq in Hi.
    apply segment_candidate_index in Hcand as [Hind Hlen].
    unfold GetSize. split; [done|]. split; lia.
  - simpl. split; [done|]. split; [lia|done].
Qed.

Lemma move_iterator_cursor (r : Route) (info : GpsInfo) :
  let r' := (MoveIterator r info).1 in
  polyPoints r' = polyPoints r
  ∧ vertexIndex r ≤ vertexIndex r'
  ∧ (vertexIndex r < GetSize (polyPoints r) → vertexIndex r' < GetSize (polyPoints r)).
Proof.
  unfold MoveIterator, vertexIndex, GetCurrentIter, polyPoints.
  match goal with
  | |- context [UpdateProjectionByPrediction (m_poly r) ?rect ?pred] =>
      pose proof (update_projection_cursor (m_poly r) rect pred) as Hupd;
      destruct (UpdateProjectionByPrediction (m_poly r) rect pred) as [poly' res]
  end.
  exact Hupd.
Qed.

Lemma move_iterators_app (r : Route) (before after : list GpsInfo) :
  MoveIterators r (before ++ after) = MoveIterators (MoveIterators r before) after.
Proof. unfold MoveIterators. apply fold_left_app. Qed.

Lemma move_iterators_cursor (fixes : list GpsInfo) (r : Route) :
  polyPoints (MoveIterators r fixes) = polyPoints r
  ∧ vertexIndex r ≤ vertexIndex (MoveIterators r fixes)
  ∧ (vertexIndex r < GetSize (polyPoints r) →
     vertexIndex (MoveIterators r fixes) < GetSize (polyPoints r)).
Proof.
  revert r. induction fixes as [|info fixes IH]; intros r.
  - simpl. split; [done|]. split; [lia|done].
  - change (MoveIterators r (info :: fixes))
      with (MoveIterators (MoveIterator r info).1 fixes).
    destruct (move_iterator_cursor r info) as (Hpts & Hmono & Hbound).
    destruct (IH (MoveIterator r info).1) as (Hpts' & Hmono' & Hbound').
    rewrite Hpts in Hpts', Hbound'.
    split; [done|]. split; [lia|]. auto.
Qed.

End CursorFacts.

(** C2.  Along any sequence of fixes, each further [MoveIterator] leaves the
    cursor's vertex index where it was or moves it forward: the index after
    the fixes [before ++ after] is at least the index after [before].  The
    points of the polyline stay the same, and if the index was below the
    number of points at the start it is so after every update.  This holds
    for every sequence, also one with non-decreasing timestamps and
    positions advancing along the route. *)
Theorem C2_cursor_never_moves_back `{Externals} (r : Route) (before after : list GpsInfo) :
  let r1 := MoveIterators r before in
  let r2 := MoveIterators r (before ++ after) in
  vertexIndex r1 ≤ vertexIndex r2
  ∧ polyPoints r2 = polyPoints r
  ∧ (vertexIndex r < GetSize (polyPoints r) → vertexIndex r2 < GetSize (polyPoints r2)).
Proof.
  intros r1 r2. subst r1 r2. rewrite move_iterators_app.
  destruct (move_iterators_cursor before r) as (Hp1 & Hm1 & Hb1).
  destruct (move_iterators_cursor after (MoveIterators r before)) as (Hp2 & Hm2 & Hb2).
  split; [lia|]. split; [congruence|].
  intros Hstart. rewrite Hp2, Hp1. rewrite Hp1 in Hb2. auto.
Qed.

Section C2_on_planar.
#[local] Existing Instance planar.

Lemma C2_cursor_never_moves_back_witness :
  let r := route_cursor 0x1.0624dd2f1a9fcp-10 10 in
  vertexIndex r < GetSize (polyPoints r)
  ∧ vertexIndex (MoveIterators r [fix_near_15])
    ≤ vertexIndex (MoveIterators r ([fix_near_15] ++ [fix_near_20; fix_near_10]))
  ∧ vertexIndex (MoveIterators r ([fix_near_15] ++ [fix_near_20; fix_near_10]))
    < GetSize (polyPoints (MoveIterators r ([fix_near_15] ++ [fix_near_20; fix_near_10]))).
Proof.
  intros r.
  assert (Hstart : vertexIndex r < GetSize (polyPoints r)) by (vm_compute; reflexivity).
  destruct (C2_cursor_never_moves_back r [fix_near_15] [fix_near_20; fix_near_10])
    as (Hmono & _ & Hbound).
  split; [exact Hstart|]. split; [exact Hmono|exact (Hbound Hstart)].
Defined.

Example cursor_moves_forward_then_stays :
  let r := route_cursor 0x1.0624dd2f1a9fcp-10 10 in
  vertexIndex (MoveIterators r [fix_near_15]) = 14
  ∧ vertexIndex (MoveIterators r [fix_near_15; fix_near_20]) = 19
  ∧ vertexIndex (MoveIterators r [fix_near_15; fix_near_20; fix_near_10]) = 19.
Proof. vm_compute. repeat split. Qed.

(** ** The [turns] array of the wire document *)

Lemma ascending_cons_inv (x : Z) (l : list Z) :
  ascending (x :: l) → (∀ y, y ∈ l → x ≤ y) ∧ ascending l.
Proof.
  intros Hasc. split.
  - intros y Hy. apply list_elem_of_lookup in Hy as [j Hj].
    apply (Hasc 0%nat (S j)); [lia|done|done].
  - intros i j a b Hij Ha Hb. apply (Hasc (S i) (S j)); [lia|done|done].
Qed.

End C2_on_planar.

Section TurnsArray.
Context `{Externals}.

(** The loop of [GetTurnsDistances] against the cumulative values over the
    displayable turns.  [prevIdx] is the vertex of the previous displayable
    turn; the entry before the current one is either that turn, or a turn at
    vertex 0 with no displayable turn before it, or a turn at the last
    vertex, after which no turn is displayable. *)
Lemma turns_distances_loop_spec (pts : list PointD) (lastIdx : Z) (ts : list TurnItem) :
  ∀ (prev : option TurnItem) (acc : float) (prevIdx : Z),
    0 ≤ former_index prev →
    ascending (m_index <$> ts) →
    (∀ t, t ∈ ts → former_index prev ≤ m_index t ≤ lastIdx) →
    former_index prev = prevIdx ∨ former_index prev = lastIdx →
    turns_distances_loop pts lastIdx prev acc ts =
    spec_cumulative (fun a b => CalculateMercatorDistanceAlongPath a b pts) prevIdx acc
      (List.filter (displayable lastIdx) ts).
Proof.
  induction ts as [|t ts IH]; intros prev acc prevIdx Hnonneg Hasc Hrange Hinv; [done|].
  rewrite fmap_cons in Hasc. apply ascending_cons_inv in Hasc as [Hle Hasc].
  assert (Ht : former_index prev ≤ m_index t ≤ lastIdx)
    by (apply Hrange; apply list_elem_of_here).
  assert (Hrange' : ∀ t', t' ∈ ts → former_index (Some t) ≤ m_index t' ≤ lastIdx).
  { intros t' Ht'. split.
    - apply Hle. apply list_elem_of_fmap. eauto.
    - apply Hrange. by apply list_elem_of_further. }
  simpl. unfold displayable at 1.
  destruct (Z.eqb_spec (m_index t) 0) as [H0|H0];
    [|destruct (Z.eqb_spec (m_index t) lastIdx) as [Hl|Hl]]; simpl.
  - apply IH; [simpl; lia|done|done|].
    simpl. destruct Hinv as [<-|Hlast]; [left; lia|right; lia].
  - apply IH; [simpl; lia|done|done|]. simpl. by right.
  - destruct Hinv as [<-|Hlast]; [|lia].
    fold (former_index prev). f_equal.
    apply IH; [simpl; lia|done|done|]. by left.
Qed.

Lemma turns_distances_spec (r : Route) :
  ascending (m_index <$> m_turns r) →
  Forall (fun t => 0 ≤ m_index t < GetSize (polyPoints r)) (m_turns r) →
  GetSize (polyPoints r) < 2 ^ 64 →
  GetTurnsDistances r = spec_turns_values (path_mercator r) r.
Proof.
  intros Hasc Hrange Hsize. unfold GetTurnsDistances, spec_turns_values.
  destruct (m_turns r) as [|t0 ts] eqn:Ht; [done|].
  assert (Hpos : 0 < GetSize (polyPoints r)).
  { apply Forall_cons in Hrange as [? _]. lia. }
  assert (Hlast : to_size_t (GetSize (polyPoints r) - 1) = GetSize (polyPoints r) - 1).
  { unfold to_size_t. apply Z.mod_small. lia. }
  rewrite Hlast. apply turns_distances_loop_spec; [done|done| |by left].
  intros t Hin. rewrite Forall_forall in Hrange. specialize (Hrange t Hin).
  simpl. lia.
Qed.

Lemma spec_cumulative_length (path : Z → Z → float) (ds : list TurnItem) :
  ∀ prevIdx acc, length (spec_cumulative path prevIdx acc ds) = length ds.
Proof. induction ds as [|t ds IH]; intros prevIdx acc; simpl; [done|]. by rewrite IH. Qed.

(** The instructions loop returns when there is a time checkpoint at the
    position of every turn. *)
Lemma instructions_loop_defined (times : list TTimeItem) (ts : list TurnItem) :
  ∀ (previousIndex : Z) (i : nat),
    (i + length ts ≤ length times)%nat →
    ∃ instructions, instructions_loop times previousIndex i ts = Some instructions.
Proof.
  induction ts as [|t ts IH]; intros previousIndex i Hlen; simpl in *; [eauto|].
  destruct (lookup_lt_is_Some_2 times i) as [timeItem Hi]; [lia|].
  rewrite Hi. simpl.
  destruct (IH (m_index t) (S i)) as [rest Hrest]; [lia|].
  rewrite Hrest. simpl. eauto.
Qed.

Lemma encode_defined (r : Route) :
  (length (m_turns r) ≤ length (m_times r))%nat →
  ∃ instructions,
    instructions_loop (m_times r) 0 0%nat (m_turns r) = Some instructions
    ∧ GetMeRouteAsJson r = Some (JObject
        [("points", JArray (encode_point <$> polyPoints r));
         ("turns", JArray (JDouble <$> GetTurnsDistances r));
         ("times", JArray (encode_time <$> m_times r));
         ("streets", JArray (encode_street <$> m_streets r));
         ("instructions", JArray instructions);
         ("absentCountries", JArray (JString <$> elements (m_absentCountries r)));
         ("distanceMercator",
          JDouble (if 0 <? GetSize (polyPoints r)
                   then CalculateMercatorDistanceAlongPath 0 (GetSize (polyPoints r) - 1)
                          (polyPoints r)
                   else 0%float));
         ("distance", JDouble (GetTotalDistanceMeters r));
         ("duration", JInt (GetTotalTimeSec r));
         ("name", JString (m_router r))]).
Proof.
  intros Hlen.
  destruct (instructions_loop_defined (m_times r) (m_turns r) 0 0%nat Hlen)
    as [instructions Hins].
  exists instructions. split; [exact Hins|].
  unfold GetMeRouteAsJson. rewrite Hins. reflexivity.
Qed.

End TurnsArray.

(** C8 (as amended).  For a route whose turn table is ordered ascending by
    vertex index with every index inside the polyline, and whose time table
    has an entry for every turn, the [turns] array of the encoded document
    has exactly one value per displayable turn (turns at vertex 0 or at the
    last vertex are left out); the values are cumulative, each adding the
    path distance from the previous displayable turn (the route start for
    the first) to this turn, and that distance is the one
    [CalculateMercatorDistanceAlongPath] gives, in the units of the planar
    projection (the measure of the member [distanceMercator]), not in
    meters. *)
Theorem C8_turns_array `{Externals} (r : Route) :
  ascending (m_index <$> m_turns r) →
  Forall (fun t => 0 ≤ m_index t < GetSize (polyPoints r)) (m_turns r) →
  GetSize (polyPoints r) < 2 ^ 64 →
  (length (m_turns r) ≤ length (m_times r))%nat →
  ∃ doc,
    GetMeRouteAsJson r = Some doc
    ∧ member "turns" doc
      = Some (JArray (JDouble <$> spec_turns_values (path_mercator r) r))
    ∧ length (spec_turns_values (path_mercator r) r)
      = length (List.filter (displayable (GetSize (polyPoints r) - 1)) (m_turns r)).
Proof.
  intros Hasc Hrange Hsize Hlen.
  destruct (encode_defined r Hlen) as (instructions & _ & Hdoc).
  eexists. split; [exact Hdoc|]. split.
  - simpl. by rewrite (turns_distances_spec r Hasc Hrange Hsize).
  - apply spec_cumulative_length.
Qed.

Section C8_on_planar.
#[local] Existing Instance planar.

Lemma C8_turns_array_witness :
  ∃ doc,
    GetMeRouteAsJson route_full = Some doc
    ∧ member "turns" doc
      = Some (JArray (JDouble <$> spec_turns_values (path_mercator route_full) route_full))
    ∧ length (spec_turns_values (path_mercator route_full) route_full) = 3%nat.
Proof.
  assert (Hrange : Forall (fun t => 0 ≤ m_index t < GetSize (polyPoints route_full))
                     (m_turns route_full)).
  { repeat constructor; vm_compute; try reflexivity; discriminate. }
  assert (Hsize : GetSize (polyPoints route_full) < 2 ^ 64) by (vm_compute; reflexivity).
  assert (Hlen : (length (m_turns route_full) ≤ length (m_times route_full))%nat)
    by (simpl; lia).
  destruct (C8_turns_array route_full ascending_5_12_40 Hrange Hsize Hlen)
    as (doc & Hdoc & Hturns & Hcount).
  exists doc. split; [exact Hdoc|]. split; [exact Hturns|].
  rewrite Hcount. reflexivity.
Defined.

(** C8, as stated, fails on the unit: on three points 10 m apart with a turn
    on the middle one, the [turns] array holds the one value 0.0001, the
    distance in the units of the projection, where the path distance in
    meters from the start to the turn is 10. *)
Lemma C8_counterexample :
  ¬ (∀ r : Route,
       ascending (m_index <$> m_turns r) →
       Forall (fun t => 0 ≤ m_index t < GetSize (polyPoints r)) (m_turns r) →
       (length (m_turns r) ≤ length (m_times r))%nat →
       ∃ doc,
         GetMeRouteAsJson r = Some doc
         ∧ member "turns" doc
           = Some (JArray (JDouble <$> spec_turns_values (path_meters r) r))).
Proof.
  intros Hclaim.
  destruct (Hclaim route_small) as (doc & Hdoc & Hturns).
  - intros i j a b Hij Ha Hb. destruct i as [|i], j as [|j]; simpl in *; simplify_eq; lia.
  - repeat constructor; vm_compute; try reflexivity; discriminate.
  - simpl. lia.
  - apply (f_equal (fun o => o ≫= member "turns")) in Hdoc.
    change (Some doc ≫= member "turns") with (member "turns" doc) in Hdoc.
    rewrite Hturns in Hdoc.
    apply (f_equal (fun o => match o with
                             | Some (JArray (JDouble x :: _)) => PrimFloat.ltb x 1
                             | _ => false
                             end)) in Hdoc.
    vm_compute in Hdoc. discriminate.
Qed.

End C8_on_planar.

(** ** Encoding and decoding the wire document *)

Lemma to_int32_to_uint32 (z : Z) :
  - 2 ^ 31 ≤ z < 2 ^ 31 → to_int32 (to_uint32 z) = z.
Proof.
  intros Hz. unfold to_int32, to_uint32.
  rewrite Z.add_mod_idemp_l by lia.
  rewrite Z.mod_small; lia.
Qed.

Lemma GetInt_JInt (z z' : Z) :
  GetInt (JInt z) = Some z' ↔ z' = z ∧ - 2 ^ 31 ≤ z < 2 ^ 31.
Proof.
  unfold GetInt.
  destruct (Z.leb_spec (- 2 ^ 31) z), (Z.ltb_spec z (2 ^ 31)); simpl;
    split; intros Hz; try (destruct Hz; lia); try discriminate.
  - by simplify_eq.
  - destruct Hz as [-> _]. done.
Qed.

Lemma fmap_eq_Forall2 {A B C : Type} (f : A → C) (g : B → C) (l : list A) (k : list B) :
  Forall2 (fun x y => f x = g y) l k → f <$> l = g <$> k.
Proof.
  induction 1 as [|x y l k Hxy _ IH]; [done|].
  rewrite !fmap_cons. by rewrite Hxy, IH.
Qed.

Section CodecFacts.
Context `{Externals}.

Lemma decode_point_encode (p : PointD) :
  decode_point (encode_point p) = Some (FromLatLon (YToLat (py p)) (XToLon (px p))).
Proof. reflexivity. Qed.

Lemma decode_points_encode (pts : list PointD) :
  mapM decode_point (encode_point <$> pts)
  = Some ((fun p => FromLatLon (YToLat (py p)) (XToLon (px p))) <$> pts).
Proof.
  induction pts as [|p pts IH]; [done|].
  rewrite !fmap_cons. cbn [mapM]. rewrite decode_point_encode, IH. done.
Qed.

(** An encoded time checkpoint has the members [time] and [index]; the
    decoder asks it for [latitude]. *)
Lemma decode_time_encode (t : TTimeItem) : decode_time (encode_time t) = None.
Proof. reflexivity. Qed.

Lemma decode_times_encode (times : list TTimeItem) :
  times ≠ [] → mapM decode_time (encode_time <$> times) = None.
Proof.
  destruct times as [|t times]; [done|]. intros _.
  rewrite fmap_cons. cbn [mapM]. by rewrite decode_time_encode.
Qed.

Lemma decode_turn_encode (previousIndex time : Z) (t t' : TurnItem) :
  decode_turn (encode_instruction previousIndex t time) = Some t' →
  m_turn t' = m_turn t ∧ m_pedestrianTurn t' = m_pedestrianTurn t.
Proof.
  unfold decode_turn, encode_instruction. cbn [member List.find fst snd String.eqb
    Ascii.eqb Bool.eqb fmap option_fmap option_map mbind option_bind].
  intros Hdec.
  destruct (GetInt (JInt (m_index t))) as [index|] eqn:Hindex; [|done].
  destruct (GetInt (JInt (m_exitNum t))) as [exitNum|] eqn:Hexit; [|done].
  destruct (GetInt (JInt (m_turn t))) as [turn|] eqn:Hturn; [|done].
  destruct (GetInt (JInt (m_pedestrianTurn t))) as [pedestrian|] eqn:Hped; [|done].
  apply GetInt_JInt in Hturn as [-> Hturn]. apply GetInt_JInt in Hped as [-> Hped].
  simpl in Hdec. simplify_eq. simpl.
  by rewrite !to_int32_to_uint32.
Qed.

Lemma decode_turn_encode_defined (previousIndex time : Z) (t : TurnItem) :
  int_fields t → ∃ t', decode_turn (encode_instruction previousIndex t time) = Some t'.
Proof.
  intros (Hindex & Hexit & Hturn & Hped).
  unfold decode_turn, encode_instruction. cbn [member List.find fst snd String.eqb
    Ascii.eqb Bool.eqb fmap option_fmap option_map mbind option_bind].
  rewrite (proj2 (GetInt_JInt (m_index t) _) (conj eq_refl Hindex)).
  rewrite (proj2 (GetInt_JInt (m_exitNum t) _) (conj eq_refl Hexit)).
  rewrite (proj2 (GetInt_JInt (m_turn t) _) (conj eq_refl Hturn)).
  rewrite (proj2 (GetInt_JInt (m_pedestrianTurn t) _) (conj eq_refl Hped)).
  simpl. eauto.
Qed.

(** Every instruction of the loop encodes the turn at its position. *)
Lemma instructions_loop_shape (times : list TTimeItem) (ts : list TurnItem) :
  ∀ (previousIndex : Z) (i : nat) (instructions : list Json),
    instructions_loop times previousIndex i ts = Some instructions →
    Forall2 (fun item t => ∃ p s, item = encode_instruction p t s) instructions ts.
Proof.
  induction ts as [|t ts IH]; intros previousIndex i instructions Hloop; simpl in Hloop.
  - simplify_eq. constructor.
  - destruct (times !! i) as [timeItem|]; [|done]. simpl in Hloop.
    destruct (instructions_loop times (m_index t) (S i) ts) as [rest|] eqn:Hrest; [|done].
    simpl in Hloop. simplify_eq. constructor; eauto.
Qed.

Lemma decode_instructions_codes (instructions : list Json) (ts ts' : list TurnItem) :
  Forall2 (fun item t => ∃ p s, item = encode_instruction p t s) instructions ts →
  mapM decode_turn instructions = Some ts' →
  m_turn <$> ts' = m_turn <$> ts ∧ m_pedestrianTurn <$> ts' = m_pedestrianTurn <$> ts.
Proof.
  intros Hshape Hdec. apply mapM_Some in Hdec.
  assert (Hcodes : Forall2 (fun t' t => m_turn t' = m_turn t
                                        ∧ m_pedestrianTurn t' = m_pedestrianTurn t) ts' ts).
  { revert ts Hshape. induction Hdec as [|item t' instructions ts' Hitem _ IH];
      intros ts Hshape; inversion Hshape as [|? t ? ts0 (p & s & ->) Hrest]; subst.
    - constructor.
    - constructor; [by eapply decode_turn_encode|by apply IH]. }
  split; apply fmap_eq_Forall2; eapply Forall2_impl; try exact Hcodes; by intros ?? [??].
Qed.

Lemma decode_instructions_defined (instructions : list Json) (ts : list TurnItem) :
  Forall2 (fun item t => ∃ p s, item = encode_instruction p t s) instructions ts →
  Forall int_fields ts →
  ∃ ts', mapM decode_turn instructions = Some ts'.
Proof.
  induction 1 as [|item t instructions ts (p & s & ->) _ IH]; intros Hfields.
  - by exists [].
  - apply Forall_cons in Hfields as [Ht Hts].
    destruct (decode_turn_encode_defined p s t Ht) as [t' Ht'].
    destruct (IH Hts) as [ts' Hts'].
    exists (t' :: ts'). cbn [mapM]. rewrite Ht', Hts'. done.
Qed.

Lemma update_keeps (r : Route) :
  polyPoints (Update r) = polyPoints r
  ∧ m_absentCountries (Update r) = m_absentCountries r
  ∧ m_turns (Update r) = m_turns r.
Proof. unfold Update. by destruct (negb (IsValid (m_poly r))). Qed.

(** What a completed [FromJson] leaves in the route: the decoded points,
    turns, times and streets, and the absent countries it had before. *)
Lemma from_json_result (r0 r' : Route) (doc : Json) :
  FromJson r0 doc = Some r' →
  ∃ points routeTimes streets routeTurns,
    decode_points doc = Some points ∧ decode_times doc = Some routeTimes
    ∧ decode_streets doc = Some streets ∧ decode_turns doc = Some routeTurns
    ∧ polyPoints r' = points ∧ m_turns r' = routeTurns ∧ m_times r' = routeTimes
    ∧ m_streets r' = streets ∧ m_absentCountries r' = m_absentCountries r0.
Proof.
  unfold FromJson. intros Hdec.
  destruct (decode_points doc) as [points|]; [|done].
  destruct (decode_times doc) as [routeTimes|]; [|done].
  destruct (decode_streets doc) as [streets|]; [|done].
  destruct (decode_turns doc) as [routeTurns|]; [|done].
  simpl in Hdec. simplify_eq.
  exists points, routeTimes, streets, routeTurns.
  repeat (split; [done|]).
  unfold SetStreetNames, SetSectionTimes, SetTurnInstructions, SetGeometry.
  destruct (update_keeps (set_poly r0 (FollowedPolyline_of points))) as (Hp & Ha & Ht).
  repeat split; try done.
Qed.

End CodecFacts.

(** C5.  For a route with a non-empty time table (and a time checkpoint for
    every turn, so that the encoding is defined), the encoded document holds
    each checkpoint of [times] as an object with the members [time]
    (cumulative seconds) and [index] (vertex index); the decoder reads the
    time of a checkpoint from a member [latitude] and its index from a member
    [longitude]; decoding the [times] array of the encoded document therefore
    stops on the absent member, [FromJson] does not complete, and no time
    table is reproduced. *)
Theorem C5_times_field_mismatch `{Externals} (r r0 : Route) :
  m_times r ≠ [] →
  (length (m_turns r) ≤ length (m_times r))%nat →
  ∃ doc,
    GetMeRouteAsJson r = Some doc
    ∧ member "times" doc
      = Some (JArray ((fun t : TTimeItem =>
                         JObject [("time", JInt t.2); ("index", JInt t.1)]) <$> m_times r))
    ∧ (∀ time index : Json,
         decode_time (JObject [("latitude", time); ("longitude", index)])
         = (t ← GetDouble time;
            i ← GetInt index;
            Some (double_to_uint32 (Z_to_double i), double_to_uint32 t)))
    ∧ decode_times doc = None
    ∧ FromJson r0 doc = None
    ∧ ¬ ∃ r', FromJson r0 doc = Some r' ∧ m_times r' = m_times r.
Proof.
  intros Htimes Hlen.
  destruct (encode_defined r Hlen) as (instructions & _ & Hdoc).
  eexists. split; [exact Hdoc|].
  assert (Hdt : decode_times (JObject
        [("points", JArray (encode_point <$> polyPoints r));
         ("turns", JArray (JDouble <$> GetTurnsDistances r));
         ("times", JArray (encode_time <$> m_times r));
         ("streets", JArray (encode_street <$> m_streets r));
         ("instructions", JArray instructions);
         ("absentCountries", JArray (JString <$> elements (m_absentCountries r)));
         ("distanceMercator",
          JDouble (if 0 <? GetSize (polyPoints r)
                   then CalculateMercatorDistanceAlongPath 0 (GetSize (polyPoints r) - 1)
                          (polyPoints r)
                   else 0%float));
         ("distance", JDouble (GetTotalDistanceMeters r));
         ("duration", JInt (GetTotalTimeSec r));
         ("name", JString (m_router r))]) = None).
  { unfold decode_times. simpl. by apply decode_times_encode. }
  assert (Hfrom : ∀ doc, decode_times doc = None → FromJson r0 doc = None).
  { intros doc Hnone. unfold FromJson. rewrite Hnone. by destruct (decode_points doc). }
  split; [reflexivity|]. split; [reflexivity|]. split; [exact Hdt|].
  split; [by apply Hfrom|].
  intros (r' & Hr' & _). rewrite (Hfrom _ Hdt) in Hr'. discriminate.
Qed.

Section C5_on_planar.
#[local] Existing Instance planar.

Lemma C5_times_field_mismatch_witness :
  ∃ doc,
    GetMeRouteAsJson route_small = Some doc
    ∧ member "times" doc
      = Some (JArray [JObject [("time", JInt 0); ("index", JInt 0)];
                      JObject [("time", JInt 20); ("index", JInt 2)]])
    ∧ decode_times doc = None
    ∧ FromJson no_route doc = None.
Proof.
  assert (Htimes : m_times route_small ≠ []) by discriminate.
  assert (Hlen : (length (m_turns route_small) ≤ length (m_times route_small))%nat)
    by (simpl; lia).
  destruct (C5_times_field_mismatch route_small no_route Htimes Hlen)
    as (doc & Hdoc & Harray & _ & Hdt & Hfrom & _).
  exists doc. repeat split; assumption.
Defined.

End C5_on_planar.

(** C4 (as amended).  For every route with a time checkpoint for every turn
    (so that the encoding is defined), [GetMeRouteAsJson] writes a document
    whose [points] and [instructions] arrays carry the round trip: whenever
    [FromJson] completes on a document that holds these two arrays (the
    written document itself, or one that differs from it in other members),
    the receiving route has as many polyline points as the encoded route and
    the same turn-direction and pedestrian-direction codes, entry by entry,
    while its absent-country set is the one it had before decoding: the
    member [absentCountries] is not read.  When the integer fields of the
    turns fit a signed 32-bit integer, [FromJson] completes on such a
    document exactly when its [times] and [streets] arrays decode. *)
Theorem C4_round_trip `{Externals} (r : Route) :
  (length (m_turns r) ≤ length (m_times r))%nat →
  ∃ doc,
    GetMeRouteAsJson r = Some doc
    ∧ ∀ (document : Json) (r0 : Route),
        member "points" document = member "points" doc →
        member "instructions" document = member "instructions" doc →
        (∀ r', FromJson r0 document = Some r' →
           length (polyPoints r') = length (polyPoints r)
           ∧ m_turn <$> m_turns r' = m_turn <$> m_turns r
           ∧ m_pedestrianTurn <$> m_turns r' = m_pedestrianTurn <$> m_turns r
           ∧ m_absentCountries r' = m_absentCountries r0)
        ∧ (Forall int_fields (m_turns r) →
           (is_Some (FromJson r0 document)
            ↔ is_Some (decode_times document) ∧ is_Some (decode_streets document))).
Proof.
  intros Hlen.
  destruct (encode_defined r Hlen) as (instructions & Hins & Hdoc).
  pose proof (instructions_loop_shape _ _ _ _ _ Hins) as Hshape.
  eexists. split; [exact Hdoc|].
  intros document r0 Hpoints Hinstructions.
  assert (Hpts : decode_points document
                 = Some ((fun p => FromLatLon (YToLat (py p)) (XToLon (px p)))
                           <$> polyPoints r)).
  { unfold decode_points. rewrite Hpoints. simpl. apply decode_points_encode. }
  assert (Htrn : decode_turns document = mapM decode_turn instructions).
  { unfold decode_turns. by rewrite Hinstructions. }
  split.
  - intros r' Hfrom.
    apply from_json_result in Hfrom
      as (points & routeTimes & streets & routeTurns
          & Hpts' & _ & _ & Htrn' & <- & <- & _ & _ & Habsent).
    rewrite Hpts in Hpts'. rewrite Htrn in Htrn'.
    apply (inj Some) in Hpts' as <-.
    destruct (decode_instructions_codes _ _ _ Hshape Htrn') as [Hturn Hped].
    by rewrite length_fmap.
  - intros Hfields.
    destruct (decode_instructions_defined _ _ Hshape Hfields) as [routeTurns Hdec].
    unfold FromJson. rewrite Hpts, Htrn, Hdec. simpl.
    destruct (decode_times document) as [routeTimes|];
      destruct (decode_streets document) as [streets|]; simpl; split.
    + intros _. split; eauto.
    + intros _. eauto.
    + intros Hsome. by apply is_Some_None in Hsome.
    + intros [_ Hsome]. by apply is_Some_None in Hsome.
    + intros Hsome. by apply is_Some_None in Hsome.
    + intros [Hsome _]. by apply is_Some_None in Hsome.
    + intros Hsome. by apply is_Some_None in Hsome.
    + intros [Hsome _]. by apply is_Some_None in Hsome.
Qed.

Section C4_on_planar.
#[local] Existing Instance planar.

Lemma C4_round_trip_witness :
  (* the document of [route_small], with its time checkpoints under the
     member names that [FromJson] reads *)
  (∃ doc r',
     GetMeRouteAsJson route_small = Some doc
     ∧ FromJson no_route (with_member "times" times_as_read doc) = Some r'
     ∧ length (polyPoints r') = 3%nat
     ∧ m_turn <$> m_turns r' = [2]
     ∧ m_pedestrianTurn <$> m_turns r' = [0]
     ∧ m_absentCountries r' = ∅)
  (* the document of [route_bare], as written *)
  ∧ (∃ doc r',
       GetMeRouteAsJson route_bare = Some doc
       ∧ FromJson no_route doc = Some r'
       ∧ length (polyPoints r') = 3%nat
       ∧ m_turn <$> m_turns r' = []
       ∧ m_absentCountries r' = ∅).
Proof.
  split.
  - assert (Hlen : (length (m_turns route_small) ≤ length (m_times route_small))%nat)
      by (simpl; lia).
    assert (Hfields : Forall int_fields (m_turns route_small)).
    { repeat constructor; simpl; lia. }
    destruct (C4_round_trip route_small Hlen) as (doc & Hdoc & Htrip).
    assert (Hsame : member "points" (with_member "times" times_as_read doc)
                    = member "points" doc
                    ∧ member "instructions" (with_member "times" times_as_read doc)
                      = member "instructions" doc).
    { pose proof Hdoc as Heq. vm_compute in Heq. apply (inj Some) in Heq.
      rewrite <- Heq. split; reflexivity. }
    destruct Hsame as [Hpoints Hinstructions].
    destruct (Htrip (with_member "times" times_as_read doc) no_route
                Hpoints Hinstructions) as [Hresult Hcompletes].
    assert (Harrays : is_Some (decode_times (with_member "times" times_as_read doc))
                      ∧ is_Some (decode_streets (with_member "times" times_as_read doc))).
    { pose proof Hdoc as Heq. vm_compute in Heq. apply (inj Some) in Heq.
      rewrite <- Heq. split; eexists; vm_compute; reflexivity. }
    destruct (proj2 (Hcompletes Hfields) Harrays) as [r' Hfrom].
    destruct (Hresult r' Hfrom) as (Hcount & Hturn & Hped & Habsent).
    exists doc, r'. repeat split; assumption.
  - assert (Hlen : (length (m_turns route_bare) ≤ length (m_times route_bare))%nat)
      by (simpl; lia).
    assert (Hfields : Forall int_fields (m_turns route_bare)) by constructor.
    destruct (C4_round_trip route_bare Hlen) as (doc & Hdoc & Htrip).
    destruct (Htrip doc no_route eq_refl eq_refl) as [Hresult Hcompletes].
    assert (Harrays : is_Some (decode_times doc) ∧ is_Some (decode_streets doc)).
    { pose proof Hdoc as Heq. vm_compute in Heq. apply (inj Some) in Heq.
      rewrite <- Heq. split; eexists; vm_compute; reflexivity. }
    destruct (proj2 (Hcompletes Hfields) Harrays) as [r' Hfrom].
    destruct (Hresult r' Hfrom) as (Hcount & Hturn & _ & Habsent).
    exists doc, r'. repeat split; assumption.
Defined.

(** C4, as stated, fails on the absent-country set: a route with three
    points, no turn, no time checkpoint and the absent country "X" encodes to
    a document that [FromJson] decodes completely, and the route that
    receives it, which had no absent country, still has none. *)
Lemma C4_counterexample :
  ¬ (∀ (r r0 r' : Route) (doc : Json),
       GetMeRouteAsJson r = Some doc →
       FromJson r0 doc = Some r' →
       length (polyPoints r') = length (polyPoints r)
       ∧ m_turn <$> m_turns r' = m_turn <$> m_turns r
       ∧ m_absentCountries r' = m_absentCountries r).
Proof.
  intros Hclaim.
  assert (Hlen : (length (m_turns route_bare) ≤ length (m_times route_bare))%nat)
    by (simpl; lia).
  destruct (encode_defined route_bare Hlen) as (instructions & Hins & Hdoc).
  simpl in Hins. simplify_eq.
  match type of Hdoc with
  | _ = Some ?doc => destruct (FromJson no_route doc) as [r'|] eqn:Hdec
  end.
  - destruct (Hclaim _ _ _ _ Hdoc Hdec) as (_ & _ & Habsent).
    apply from_json_result in Hdec as (? & ? & ? & ? & _ & _ & _ & _ & _ & _ & _ & _ & Hkept).
    rewrite Hkept in Habsent.
    change (m_absentCountries no_route) with (∅ : gset string) in Habsent.
    change (m_absentCountries route_bare) with ({[ "X" ]} : gset string) in Habsent.
    assert (Hin : "X" ∈ (∅ : gset string)) by (rewrite Habsent; set_solver).
    set_solver.
  - vm_compute in Hdec. discriminate.
Qed.

End C4_on_planar.

(** * Further properties of the code *)

(** ** Turn lookahead *)

Lemma first_index_le_length {A : Type} (P : A → bool) (l : list A) :
  (first_index P l ≤ length l)%nat.
Proof. induction l as [|x l IH]; simpl; [lia|]. destruct (P x); lia. Qed.

Lemma first_index_before {A : Type} (P : A → bool) (l : list A) (i : nat) (x : A) :
  (i < first_index P l)%nat → l !! i = Some x → P x = false.
Proof.
  revert i. induction l as [|a l IH]; intros i Hi Hx; simpl in *; [lia|].
  destruct (P a) eqn:Ha; [lia|].
  destruct i as [|i]; simpl in Hx; [by simplify_eq|]. apply (IH i); [lia|done].
Qed.

Lemma first_index_at {A : Type} (P : A → bool) (l : list A) (x : A) :
  l !! first_index P l = Some x → P x = true.
Proof.
  induction l as [|a l IH]; simpl; [done|].
  destruct (P a) eqn:Ha; simpl; [by intros; simplify_eq|exact IH].
Qed.

Lemma first_index_none {A : Type} (P : A → bool) (l : list A) :
  first_index P l = length l ↔ ∀ x, x ∈ l → P x = false.
Proof.
  induction l as [|a l IH]; simpl.
  - split; [intros _ x Hx; by apply elem_of_nil in Hx|done].
  - destruct (P a) eqn:Ha.
    + split; [lia|]. intros Hall. rewrite (Hall a) in Ha; [done|apply list_elem_of_here].
    + split.
      * intros Heq x Hx. apply elem_of_cons in Hx as [->|Hx]; [done|].
        apply IH; [lia|done].
      * intros Hall. f_equal. apply IH. intros x Hx. apply Hall.
        by apply list_elem_of_further.
Qed.

(** On a partitioned range the elements that satisfy the comparator are
    those from the first one on. *)
Lemma filter_partitioned {V A : Type} (comp : V → A → bool) (val : V) (l : list A) :
  partitioned comp val l →
  List.filter (comp val) l = drop (first_index (comp val) l) l.
Proof.
  induction l as [|a l IH]; intros Hpart; [done|].
  assert (Hpart' : partitioned comp val l).
  { intros i j x y Hij Hx Hy. apply (Hpart (S i) (S j)); [lia|done|done]. }
  simpl. destruct (comp val a) eqn:Ha; simpl.
  - f_equal. rewrite IH by done.
    assert (Hzero : first_index (comp val) l = 0%nat).
    { destruct l as [|b l']; [done|]. simpl.
      rewrite (Hpart 0%nat 1%nat a b); [done|lia|done|done|done]. }
    by rewrite Hzero.
  - by apply IH.
Qed.

Section TurnLookahead.
Context `{Externals}.

(** The turn under [GetCurrentTurn] is the nearest one strictly ahead of the
    cursor. *)
Lemma current_turn_ahead (r : Route) (cur : TurnItem) :
  ascending (m_index <$> m_turns r) →
  m_turns r !! GetCurrentTurn r = Some cur →
  to_uint32 (vertexIndex r) < m_index cur
  ∧ ∀ t, t ∈ m_turns r → to_uint32 (vertexIndex r) < m_index t → m_index cur ≤ m_index t.
Proof.
  intros Hasc Hcur. rewrite (current_turn_first_after r Hasc) in Hcur.
  split.
  - apply first_index_at in Hcur. by apply Z.ltb_lt in Hcur.
  - intros t Ht Hahead. apply list_elem_of_lookup in Ht as [j Hj].
    destruct (Nat.lt_ge_cases j
                (first_index (fun t => to_uint32 (vertexIndex r) <? m_index t) (m_turns r)))
      as [Hlt|Hge].
    + pose proof (first_index_before _ _ _ _ Hlt Hj) as Hfalse.
      apply Z.ltb_ge in Hfalse. lia.
    + destruct (decide (j = first_index (fun t => to_uint32 (vertexIndex r) <? m_index t)
                                (m_turns r))) as [->|Hne].
      * rewrite Hcur in Hj. by simplify_eq.
      * apply (Hasc (first_index (fun t => to_uint32 (vertexIndex r) <? m_index t)
                       (m_turns r)) j); [lia| |]; rewrite list_lookup_fmap.
        -- by rewrite Hcur.
        -- by rewrite Hj.
Qed.

End TurnLookahead.

(** X1.  On a turn table ordered ascending by vertex index,
    [GetCurrentTurn(distance, turn)] succeeds exactly when some turn lies
    strictly ahead of the cursor's vertex; the turn it stores is the nearest
    such turn, and the distance is the polyline distance from the cursor to
    the vertex of that turn.  When it fails, the two outputs keep the values
    the caller passed in. *)
Theorem current_turn_is_nearest_ahead `{Externals} (r : Route) (d : float) (t : TurnItem) :
  ascending (m_index <$> m_turns r) →
  ((∃ t', t' ∈ m_turns r ∧ to_uint32 (vertexIndex r) < m_index t') →
     ∃ turn,
       GetCurrentTurnDist r d t
       = (true,
          GetDistanceM (polyPoints r) (GetCurrentIter r)
            (GetIterToIndex (m_poly r) (m_index turn)),
          turn)
       ∧ turn ∈ m_turns r
       ∧ to_uint32 (vertexIndex r) < m_index turn
       ∧ ∀ t', t' ∈ m_turns r → to_uint32 (vertexIndex r) < m_index t' →
               m_index turn ≤ m_index t')
  ∧ ((∀ t', t' ∈ m_turns r → m_index t' ≤ to_uint32 (vertexIndex r)) →
     GetCurrentTurnDist r d t = (false, d, t)).
Proof.
  intros Hasc. pose proof (current_turn_first_after r Hasc) as Hpos.
  split.
  - intros (t' & Ht' & Hahead).
    destruct (m_turns r !! GetCurrentTurn r) as [turn|] eqn:Hcur.
    + exists turn. unfold GetCurrentTurnDist. rewrite Hcur.
      split; [done|]. split; [by eapply list_elem_of_lookup_2|].
      by apply current_turn_ahead.
    + exfalso. apply lookup_ge_None in Hcur. rewrite Hpos in Hcur.
      pose proof (first_index_le_length
                    (fun t => to_uint32 (vertexIndex r) <? m_index t) (m_turns r)) as Hle.
      assert (Hnone : first_index (fun t => to_uint32 (vertexIndex r) <? m_index t)
                        (m_turns r) = length (m_turns r)) by lia.
      pose proof (proj1 (first_index_none _ _) Hnone t' Ht') as Hfalse.
      apply Z.ltb_ge in Hfalse. lia.
  - intros Hnone. unfold GetCurrentTurnDist. rewrite Hpos.
    assert (Hend : first_index (fun t => to_uint32 (vertexIndex r) <? m_index t)
                     (m_turns r) = length (m_turns r)).
    { apply first_index_none. intros x Hx. apply Z.ltb_ge. by apply Hnone. }
    rewrite Hend. by rewrite (proj2 (lookup_ge_None (m_turns r) _) (Nat.le_refl _)).
Qed.

(** The turns strictly ahead of the cursor are the table from
    [GetCurrentTurn] on. *)
Lemma turns_ahead_drop (r : Route) :
  ascending (m_index <$> m_turns r) →
  List.filter (fun t => to_uint32 (vertexIndex r) <? m_index t) (m_turns r)
  = drop (GetCurrentTurn r) (m_turns r).
Proof.
  intros Hasc. rewrite (current_turn_first_after r Hasc).
  apply (filter_partitioned (fun (v : Z) (t : TurnItem) => v <? m_index t)).
  by apply ascending_turns_partitioned.
Qed.

Lemma drop_cons_lookup {A : Type} (l : list A) (n : nat) (x : A) (rest : list A) :
  drop n l = x :: rest → l !! n = Some x ∧ drop (S n) l = rest.
Proof.
  revert n. induction l as [|a l IH]; intros n Hdrop.
  - by rewrite drop_nil in Hdrop.
  - destruct n as [|n]; simpl in *; [by simplify_eq|]. by apply IH.
Qed.

(** X2.  On a turn table ordered ascending by vertex index, [GetNextTurn]
    gives the second of the turns that lie strictly ahead of the cursor's
    vertex, with the polyline distance from the cursor to its vertex; its
    vertex index is not below that of the first one.  With fewer than two
    turns ahead it reports not-found and resets its outputs to distance 0 and
    the default turn. *)
Theorem next_turn_is_second_ahead `{Externals} (r : Route) :
  ascending (m_index <$> m_turns r) →
  match List.filter (fun t => to_uint32 (vertexIndex r) <? m_index t) (m_turns r) with
  | cur :: next :: _ =>
      GetNextTurn r
      = (true,
         GetDistanceM (polyPoints r) (GetCurrentIter r)
           (GetIterToIndex (m_poly r) (m_index next)),
         next)
      ∧ m_index cur ≤ m_index next
  | _ => GetNextTurn r = (false, 0%float, TurnItem_default)
  end.
Proof.
  intros Hasc. rewrite (turns_ahead_drop r Hasc).
  pose proof (length_drop (m_turns r) (GetCurrentTurn r)) as Hlen.
  assert (Hle : (GetCurrentTurn r ≤ length (m_turns r))%nat).
  { rewrite (current_turn_first_after r Hasc). apply first_index_le_length. }
  unfold GetNextTurn.
  destruct (drop (GetCurrentTurn r) (m_turns r)) as [|cur [|next rest]] eqn:Hdrop;
    simpl in Hlen.
  - assert (Heq : GetCurrentTurn r = length (m_turns r)) by lia.
    by rewrite Heq, Nat.eqb_refl.
  - assert (Heq : S (GetCurrentTurn r) = length (m_turns r)) by lia.
    rewrite Heq, Nat.eqb_refl. by rewrite orb_true_r.
  - apply drop_cons_lookup in Hdrop as [Hcur Hdrop].
    apply drop_cons_lookup in Hdrop as [Hnext _].
    destruct (Nat.eqb_spec (GetCurrentTurn r) (length (m_turns r))); [lia|].
    destruct (Nat.eqb_spec (S (GetCurrentTurn r)) (length (m_turns r))); [lia|].
    simpl. rewrite Hnext. split; [done|].
    apply (Hasc (GetCurrentTurn r) (S (GetCurrentTurn r))); [lia| |];
      rewrite list_lookup_fmap.
    + by rewrite Hcur.
    + by rewrite Hnext.
Qed.

(** X3.  On a turn table ordered ascending by vertex index, [GetNextTurns]
    returns false and leaves the caller's vector alone when no turn lies
    strictly ahead of the cursor; otherwise it returns true and replaces the
    content of the vector by the first turn ahead, followed by the second
    one when there is one, each with the polyline distance from the cursor
    to its vertex.  The default-constructed locals never show in the
    result. *)
Theorem next_turns_are_first_two_ahead `{Externals} (r : Route) (fresh : TurnItemDist)
    (turns : list TurnItemDist) :
  ascending (m_index <$> m_turns r) →
  let dist (t : TurnItem) :=
    GetDistanceM (polyPoints r) (GetCurrentIter r) (GetIterToIndex (m_poly r) (m_index t)) in
  GetNextTurns r fresh turns =
  match List.filter (fun t => to_uint32 (vertexIndex r) <? m_index t) (m_turns r) with
  | [] => (false, turns)
  | [cur] => (true, [mkTurnItemDist cur (dist cur)])
  | cur :: next :: _ =>
      (true, [mkTurnItemDist cur (dist cur); mkTurnItemDist next (dist next)])
  end.
Proof.
  intros Hasc dist.
  rewrite (turns_ahead_drop r Hasc).
  pose proof (length_drop (m_turns r) (GetCurrentTurn r)) as Hlen.
  assert (Hle : (GetCurrentTurn r ≤ length (m_turns r))%nat).
  { rewrite (current_turn_first_after r Hasc). apply first_index_le_length. }
  unfold GetNextTurns, GetCurrentTurnDist, GetNextTurn.
  destruct (drop (GetCurrentTurn r) (m_turns r)) as [|cur [|next rest]] eqn:Hdrop;
    simpl in Hlen.
  - assert (Hnone : m_turns r !! GetCurrentTurn r = None)
      by (apply lookup_ge_None; lia).
    by rewrite Hnone.
  - apply drop_cons_lookup in Hdrop as [Hcur _]. rewrite Hcur.
    destruct (Nat.eqb_spec (GetCurrentTurn r) (length (m_turns r))); [lia|].
    destruct (Nat.eqb_spec (S (GetCurrentTurn r)) (length (m_turns r))); [|lia].
    done.
  - apply drop_cons_lookup in Hdrop as [Hcur Hdrop].
    apply drop_cons_lookup in Hdrop as [Hnext _].
    rewrite Hcur.
    destruct (Nat.eqb_spec (GetCurrentTurn r) (length (m_turns r))); [lia|].
    destruct (Nat.eqb_spec (S (GetCurrentTurn r)) (length (m_turns r))); [lia|].
    by rewrite Hnext.
Qed.

Section Lookahead_on_planar.
#[local] Existing Instance planar.

Lemma current_turn_is_nearest_ahead_witness :
  (∃ turn d,
     GetCurrentTurnDist (route_ahead 8) 0%float (turn_at 0) = (true, d, turn)
     ∧ m_index turn = 12)
  ∧ GetCurrentTurnDist (route_ahead 40) 7%float (turn_at 3) = (false, 7%float, turn_at 3).
Proof.
  destruct (current_turn_is_nearest_ahead (route_ahead 8) 0%float (turn_at 0)
              ascending_5_12_40) as [Hfound _].
  destruct (current_turn_is_nearest_ahead (route_ahead 40) 7%float (turn_at 3)
              ascending_5_12_40) as [_ Hnone].
  split.
  - destruct Hfound as (turn & Heq & Hin & Hahead & Hnearest).
    { exists (turn_at 12). split; [|vm_compute; reflexivity].
      apply list_elem_of_further, list_elem_of_here. }
    exists turn. eexists. split; [exact Heq|].
    assert (H12 : m_index turn ≤ 12).
    { apply (Hnearest (turn_at 12)); [|vm_compute; reflexivity].
      apply list_elem_of_further, list_elem_of_here. }
    change (to_uint32 (vertexIndex (route_ahead 8))) with 8 in Hahead.
    change (m_turns (route_ahead 8)) with three_turns in Hin.
    unfold three_turns in Hin.
    repeat (apply elem_of_cons in Hin as [->|Hin]; [simpl in *; lia|]).
    by apply elem_of_nil in Hin.
  - apply Hnone. intros t' Hin.
    change (to_uint32 (vertexIndex (route_ahead 40))) with 40.
    change (m_turns (route_ahead 40)) with three_turns in Hin.
    unfold three_turns in Hin.
    repeat (apply elem_of_cons in Hin as [->|Hin]; [simpl; lia|]).
    by apply elem_of_nil in Hin.
Defined.

Lemma next_turn_is_second_ahead_witness :
  (∃ d next, GetNextTurn (route_ahead 8) = (true, d, next) ∧ m_index next = 40)
  ∧ GetNextTurn (route_ahead 12) = (false, 0%float, TurnItem_default).
Proof.
  pose proof (next_turn_is_second_ahead (route_ahead 8) ascending_5_12_40) as H8.
  pose proof (next_turn_is_second_ahead (route_ahead 12) ascending_5_12_40) as H12.
  split.
  - destruct H8 as [Heq _]. eexists. exists (turn_at 40). split; [exact Heq|reflexivity].
  - exact H12.
Defined.

Lemma next_turns_are_first_two_ahead_witness :
  let stale := [mkTurnItemDist (turn_at 1) 0%float] in
  (∃ d12 d40,
     GetNextTurns (route_ahead 8) (mkTurnItemDist (turn_at 0) 0%float) stale
     = (true, [mkTurnItemDist (turn_at 12) d12; mkTurnItemDist (turn_at 40) d40]))
  ∧ (∃ d40,
       GetNextTurns (route_ahead 12) (mkTurnItemDist (turn_at 0) 0%float) stale
       = (true, [mkTurnItemDist (turn_at 40) d40]))
  ∧ GetNextTurns (route_ahead 40) (mkTurnItemDist (turn_at 0) 0%float) stale
    = (false, stale).
Proof.
  intros stale.
  pose proof (next_turns_are_first_two_ahead (route_ahead 8)
                (mkTurnItemDist (turn_at 0) 0%float) stale ascending_5_12_40) as H8.
  pose proof (next_turns_are_first_two_ahead (route_ahead 12)
                (mkTurnItemDist (turn_at 0) 0%float) stale ascending_5_12_40) as H12.
  pose proof (next_turns_are_first_two_ahead (route_ahead 40)
                (mkTurnItemDist (turn_at 0) 0%float) stale ascending_5_12_40) as H40.
  split; [|split].
  - do 2 eexists. exact H8.
  - eexists. exact H12.
  - exact H40.
Defined.

End Lookahead_on_planar.

Lemma first_index_mono {A : Type} (P Q : A → bool) (l : list A) :
  (∀ x, Q x = true → P x = true) → (first_index P l ≤ first_index Q l)%nat.
Proof.
  intros Himp. induction l as [|a l IH]; simpl; [lia|].
  destruct (Q a) eqn:HQ.
  - by rewrite (Himp a HQ).
  - destruct (P a); lia.
Qed.

(** X4.  On a turn table ordered ascending by vertex index, the position
    [GetCurrentTurn] gives never goes back when the cursor's vertex index
    grows (both indices being 32-bit values): a turn once passed does not
    become current again. *)
Theorem current_turn_never_goes_back (r r' : Route) :
  m_turns r = m_turns r' →
  ascending (m_index <$> m_turns r) →
  0 ≤ vertexIndex r ≤ vertexIndex r' →
  vertexIndex r' < 2 ^ 32 →
  (GetCurrentTurn r ≤ GetCurrentTurn r')%nat.
Proof.
  intros Hsame Hasc Hle Hbound.
  assert (Hasc' : ascending (m_index <$> m_turns r')) by (by rewrite <- Hsame).
  rewrite (current_turn_first_after r Hasc), (current_turn_first_after r' Hasc').
  rewrite <- Hsame. apply first_index_mono. intros t Ht.
  apply Z.ltb_lt in Ht. apply Z.ltb_lt.
  unfold to_uint32 in *. rewrite Z.mod_small in * by lia. lia.
Qed.

Lemma current_turn_never_goes_back_witness :
  (GetCurrentTurn (route_turns 8) ≤ GetCurrentTurn (route_turns 12))%nat.
Proof.
  apply current_turn_never_goes_back.
  - reflexivity.
  - exact ascending_5_12_40.
  - unfold vertexIndex. simpl. lia.
  - unfold vertexIndex. simpl. lia.
Defined.

(** ** Street names *)

Lemma street_scan_defined (ind : Z) (rest : list TStreetItem) :
  ∀ prev cur : nat,
    rest ≠ [] → (prev ≤ cur)%nat →
    ∃ p, street_scan ind rest prev cur = Some p ∧ (prev ≤ p ≤ cur + length rest)%nat.
Proof.
  induction rest as [|c rest IH]; intros prev cur Hne Hle; [done|].
  simpl. destruct (c.1 <? ind).
  - destruct rest as [|c' rest'].
    + exists (S cur). split; [done|]. simpl. lia.
    + assert (Hne' : c' :: rest' ≠ []) by done.
      assert (Hle' : (S prev ≤ S cur)%nat) by lia.
      destruct (IH (S prev) (S cur) Hne' Hle') as (p & Hp & Hrange).
      exists p. split; [done|]. simpl in *. lia.
  - eexists. split; [done|]. destruct (c.1 =? ind); simpl; lia.
Qed.

Lemma street_iter_none (streets : list TStreetItem) (iter : Iter) :
  GetCurrentStreetNameIterAfter streets iter = None ↔ length streets = 1%nat.
Proof.
  destruct streets as [|e0 [|e1 rest]]; [split; [done|simpl; lia]|done|].
  assert (Hne : e1 :: rest ≠ []) by done.
  destruct (street_scan_defined (m_ind iter) (e1 :: rest) 0 1 Hne (Nat.le_0_l 1))
    as (p & Hp & _).
  unfold GetCurrentStreetNameIterAfter. rewrite Hp. split; [done|simpl; lia].
Qed.

(** X5.  [GetCurrentStreetNameIterAfter] has a defined result on every street
    table except those of exactly one entry, and the result is a position of
    the table or its end, never beyond. *)
Theorem street_iter_defined (streets : list TStreetItem) (iter : Iter) :
  (GetCurrentStreetNameIterAfter streets iter = None ↔ length streets = 1%nat)
  ∧ ∀ p, GetCurrentStreetNameIterAfter streets iter = Some p → (p ≤ length streets)%nat.
Proof.
  destruct streets as [|e0 [|e1 rest]].
  - split; [split; [done|simpl; lia]|]. intros p Hp. simpl in Hp. simplify_eq. lia.
  - split; [done|]. intros p Hp. done.
  - assert (Hne : e1 :: rest ≠ []) by done.
    destruct (street_scan_defined (m_ind iter) (e1 :: rest) 0 1 Hne (Nat.le_0_l 1))
      as (p & Hp & Hrange).
    unfold GetCurrentStreetNameIterAfter. rewrite Hp. split.
    + split; [done|simpl; lia].
    + intros q Hq. simplify_eq. simpl in *. lia.
Qed.

Section StreetNames.
Context `{Externals}.

Lemma street_name_loop_from_table (fp : FollowedPolyline) (polyIter : Iter)
    (rest : list TStreetItem) :
  street_name_loop fp polyIter rest ≠ EmptyString →
  ∃ e, e ∈ rest
       ∧ e.2 = street_name_loop fp polyIter rest
       ∧ PrimFloat.ltb
           (GetDistanceM (m_polyPoints fp) polyIter
              (GetIterToIndex fp (Z.max e.1 (to_uint32 (m_ind polyIter)))))
           kSteetNameLinkMeters = true.
Proof.
  induction rest as [|item rest IH]; simpl; [done|].
  destruct (string_empty item.2).
  - intros Hne. destruct (IH Hne) as (e & Hin & Hname & Hdist).
    exists e. split; [by apply list_elem_of_further|done].
  - destruct (PrimFloat.ltb _ _) eqn:Hdist; [|done].
    intros _. exists item. split; [apply list_elem_of_here|done].
Qed.

End StreetNames.

(** X6.  [GetStreetNameAfterIdx] has a defined result on every street table
    except those of exactly one entry.  A name it returns is either empty or
    the name of an entry of the table whose polyline distance from the query
    position is below [kSteetNameLinkMeters]: it never returns a name that
    is not in the table, nor one at or beyond the lookahead distance. *)
Theorem street_after_from_table `{Externals} (r : Route) (idx : Z) :
  (GetStreetNameAfterIdx r idx = None ↔ length (m_streets r) = 1%nat)
  ∧ ∀ name,
      GetStreetNameAfterIdx r idx = Some name → name ≠ EmptyString →
      ∃ e, e ∈ m_streets r ∧ e.2 = name
           ∧ PrimFloat.ltb
               (GetDistanceM (polyPoints r) (GetIterToIndex (m_poly r) idx)
                  (GetIterToIndex (m_poly r) (Z.max e.1 (to_uint32 idx))))
               kSteetNameLinkMeters = true.
Proof.
  pose proof (street_iter_none (m_streets r) (GetIterToIndex (m_poly r) idx)) as Hnone.
  unfold GetStreetNameAfterIdx.
  destruct (GetCurrentStreetNameIterAfter (m_streets r) (GetIterToIndex (m_poly r) idx))
    as [it|] eqn:Hit; simpl.
  - split.
    + split; [by destruct (it =? length (m_streets r))%nat|].
      intros Hlen. apply Hnone in Hlen. done.
    + intros name Hname Hne.
      destruct (it =? length (m_streets r))%nat; simplify_eq.
      destruct (street_name_loop_from_table _ _ _ Hne) as (e & Hin & He & Hdist).
      exists e. split; [by apply (subseteq_drop it)|]. split; done.
  - split; [|done]. split; [intros _; by apply Hnone|done].
Qed.

(** Where the scan of [GetCurrentStreetNameIterAfter] ends on a table of at
    least two entries ordered strictly ascending: past the start of the last
    entry it is the end of the table, otherwise the entry whose range holds
    the index, or the first entry when the index comes before it. *)
Lemma street_iter_in_force (streets : list TStreetItem) (iter : Iter)
    (e0 e : TStreetItem) (rest : list TStreetItem) :
  strictly_ascending (fst <$> streets) →
  streets = e0 :: rest → rest ≠ [] → last streets = Some e →
  (e.1 < m_ind iter →
   GetCurrentStreetNameIterAfter streets iter = Some (length streets))
  ∧ (m_ind iter ≤ e.1 →
     ∃ (start : nat) (entry : TStreetItem),
       GetCurrentStreetNameIterAfter streets iter = Some start
       ∧ streets !! start = Some entry
       ∧ (range_contains streets start (m_ind iter)
          ∨ (start = 0%nat ∧ m_ind iter < entry.1))).
Proof.
  intros Hasc -> Hrest Hlast. split.
  - intros Hpast.
    assert (Hall : Forall (fun x : TStreetItem => x.1 < m_ind iter) rest).
    { apply Forall_forall. intros x Hx.
      assert (x.1 ≤ e.1); [|lia].
      apply (ascending_below_last (e0 :: rest)); [done|done|].
      by apply list_elem_of_further. }
    simpl. rewrite (street_scan_past_all _ _ _ _ Hrest Hall). done.
  - intros Hin.
    assert (Hnot : ¬ Forall (fun x : TStreetItem => x.1 < m_ind iter) rest).
    { intros Hall. rewrite Forall_forall in Hall.
      assert (He : e ∈ rest).
      { rewrite last_lookup in Hlast. simpl in Hlast.
        destruct rest as [|e1 rest1]; [done|].
        apply list_elem_of_lookup. exists (length rest1). exact Hlast. }
      specialize (Hall e He). simpl in Hall. lia. }
    destruct (street_scan_stops (m_ind iter) rest 0 1 Hnot)
      as (k & c & Hk & Hc & Hbefore & Hscan).
    destruct (Z.eqb_spec c.1 (m_ind iter)) as [Heq|Hneq].
    + exists (1 + k)%nat, c. split; [exact Hscan|]. split; [exact Hk|].
      left. exists c. split; [exact Hk|]. split; [lia|].
      intros n Hn. assert (c.1 < n.1); [|lia].
      apply (Hasc (S k) (S (S k))); [lia| |]; rewrite list_lookup_fmap.
      * simpl. by rewrite Hk.
      * change ((e0 :: rest) !! S (1 + k)) with (rest !! S k) in Hn.
        simpl. by rewrite Hn.
    + destruct k as [|k'].
      * exists 0%nat, e0. split; [exact Hscan|]. split; [done|].
        destruct (Z.le_gt_cases e0.1 (m_ind iter)) as [Hle|Hgt].
        -- left. exists e0. split; [done|]. split; [done|].
           intros n Hn. simpl in Hn. simplify_eq. lia.
        -- right. split; [done|lia].
      * destruct (lookup_lt_is_Some_2 rest k') as [e' He'].
        { apply lookup_lt_Some in Hk. lia. }
        exists (S k'), e'. split; [exact Hscan|]. split; [exact He'|].
        left. exists e'. split; [exact He'|]. split.
        -- assert (e'.1 < m_ind iter) by (apply (Hbefore k'); [lia|done]). lia.
        -- intros n Hn. simpl in Hn. simplify_eq. lia.
Qed.

(** X7.  On a street table ordered strictly ascending by vertex index with
    no entry or at least two: when the cursor's vertex lies past the start
    of the last entry (or the table is empty) [GetCurrentStreetName] gives
    the empty name; otherwise it gives the name, possibly empty, of the
    entry whose range holds the cursor's vertex, or of the first entry when
    the cursor comes before it. *)
Theorem current_street_in_force (r : Route) :
  strictly_ascending (fst <$> m_streets r) →
  length (m_streets r) ≠ 1%nat →
  match last (m_streets r) with
  | None => GetCurrentStreetName r = Some EmptyString
  | Some e =>
      if e.1 <? vertexIndex r then GetCurrentStreetName r = Some EmptyString
      else
        ∃ (start : nat) (entry : TStreetItem),
          m_streets r !! start = Some entry
          ∧ (range_contains (m_streets r) start (vertexIndex r)
             ∨ (start = 0%nat ∧ vertexIndex r < entry.1))
          ∧ GetCurrentStreetName r = Some entry.2
  end.
Proof.
  intros Hasc Hlen. unfold GetCurrentStreetName.
  destruct (last (m_streets r)) as [e|] eqn:Hlast.
  - destruct (m_streets r) as [|e0 rest] eqn:Hs; [done|].
    assert (Hrest : rest ≠ []) by (intros ->; done).
    destruct (street_iter_in_force (e0 :: rest) (GetCurrentIter r) e0 e rest
                Hasc eq_refl Hrest Hlast) as [Hpast Hin].
    destruct (Z.ltb_spec e.1 (vertexIndex r)) as [Hlt|Hge].
    + assert (Hend : (e0 :: rest) !! length (e0 :: rest) = None)
        by (apply lookup_ge_None; lia).
      rewrite (Hpast Hlt). unfold mbind, option_bind. by rewrite Hend.
    + destruct (Hin Hge) as (start & entry & Hstart & Hentry & Hrange).
      exists start, entry. split; [done|]. split; [done|].
      rewrite Hstart. unfold mbind, option_bind. by rewrite Hentry.
  - destruct (m_streets r) as [|e0 rest] eqn:Hs; [done|].
    rewrite last_lookup in Hlast. simpl in Hlast.
    apply lookup_ge_None in Hlast. simpl in Hlast. lia.
Qed.

Section Streets_on_planar.
#[local] Existing Instance planar.

Lemma street_iter_defined_witness :
  GetCurrentStreetNameIterAfter [(0, "Main St")] (mkIter origin 5 true) = None
  ∧ ∃ p, GetCurrentStreetNameIterAfter main_street (mkIter origin 35 true) = Some p
         ∧ (p ≤ 2)%nat.
Proof.
  destruct (street_iter_defined [(0, "Main St")] (mkIter origin 5 true)) as [Hone _].
  destruct (street_iter_defined main_street (mkIter origin 35 true)) as [_ Hbound].
  split; [by apply Hone|].
  exists 2%nat. split; [reflexivity|]. by apply Hbound.
Defined.

Lemma street_after_from_table_witness :
  GetStreetNameAfterIdx
    (route_of straight_line [] [] [(0, "Main St")] ∅ 0) 0 = None
  ∧ ∃ e, e ∈ m_streets (route_streets 10) ∧ e.2 = "Main St"
         ∧ PrimFloat.ltb
             (GetDistanceM (polyPoints (route_streets 10))
                (GetIterToIndex (m_poly (route_streets 10)) 0)
                (GetIterToIndex (m_poly (route_streets 10)) (Z.max e.1 (to_uint32 0))))
             kSteetNameLinkMeters = true.
Proof.
  destruct (street_after_from_table
              (route_of straight_line [] [] [(0, "Main St")] ∅ 0) 0) as [Hone _].
  destruct (street_after_from_table (route_streets 10) 0) as [_ Hname].
  split; [by apply Hone|].
  apply (Hname "Main St"); [vm_compute; reflexivity|discriminate].
Defined.

Lemma current_street_in_force_witness :
  let r := route_of straight_line [] [] main_street ∅ 12 in
  strictly_ascending (fst <$> m_streets r)
  ∧ ∃ (start : nat) (entry : TStreetItem),
      m_streets r !! start = Some entry
      ∧ (range_contains (m_streets r) start (vertexIndex r)
         ∨ (start = 0%nat ∧ vertexIndex r < entry.1))
      ∧ GetCurrentStreetName r = Some entry.2.
Proof.
  intros r.
  assert (Hlen : length (m_streets r) ≠ 1%nat) by (simpl; lia).
  split; [exact strictly_ascending_0_30|].
  exact (current_street_in_force r strictly_ascending_0_30 Hlen).
Defined.

End Streets_on_planar.

(** ** Times *)

(** X8.  On a time table whose cumulative seconds are ascending,
    [GetTotalTimeSec] is the seconds of one of the checkpoints and no
    checkpoint has more: the total time of the route is the largest
    cumulative time of the table. *)
Theorem total_time_is_largest (r : Route) :
  ascending (snd <$> m_times r) →
  m_times r ≠ [] →
  (∃ final, final ∈ m_times r ∧ GetTotalTimeSec r = final.2)
  ∧ ∀ item, item ∈ m_times r → item.2 ≤ GetTotalTimeSec r.
Proof.
  intros Hasc Hne. unfold GetTotalTimeSec.
  destruct (last (m_times r)) as [final|] eqn:Hlast.
  - split; [exists final; split; [by eapply last_Some_elem_of|done]|].
    intros item Hitem. rewrite last_lookup in Hlast.
    apply list_elem_of_lookup in Hitem as [i Hi].
    pose proof (lookup_lt_Some _ _ _ Hi) as Hlt.
    destruct (decide (i = pred (length (m_times r)))) as [->|Hneq].
    + rewrite Hlast in Hi. by simplify_eq.
    + apply (Hasc i (pred (length (m_times r)))); [lia| |]; rewrite list_lookup_fmap.
      * by rewrite Hi.
      * by rewrite Hlast.
  - rewrite last_lookup in Hlast. apply lookup_ge_None in Hlast.
    destruct (m_times r); [done|simpl in Hlast; lia].
Qed.

(** X9.  When no time checkpoint lies strictly ahead of the cursor's vertex
    (the cursor is on or past the last checkpoint), [GetCurrentTimeToEndSec]
    is 0, whatever the geometry; the table need not be ordered for this. *)
Theorem time_to_end_zero_past_last `{Externals} (r : Route) :
  (∀ item : TTimeItem, item ∈ m_times r → item.1 ≤ vertexIndex r) →
  GetCurrentTimeToEndSec r = 0.
Proof.
  intros Hpast. unfold GetCurrentTimeToEndSec, GetCurrentTimeToEndSec_with.
  destruct (m_times r) as [|t0 ts] eqn:Ht; [done|].
  destruct (GetSize (polyPoints r) =? 0); [done|].
  fold (vertexIndex r).
  assert (Hfalse : ∀ x : TTimeItem, x ∈ t0 :: ts → (vertexIndex r <? x.1) = false).
  { intros x Hx. apply Z.ltb_ge. by apply Hpast. }
  assert (Hpart : partitioned (fun (v : Z) (item : TTimeItem) => v <? item.1)
                    (vertexIndex r) (t0 :: ts)).
  { intros i j x y _ Hx _ Hc. apply list_elem_of_lookup_2 in Hx.
    rewrite (Hfalse x Hx) in Hc. done. }
  rewrite (upper_bound_first_index _ _ _ Hpart).
  rewrite (proj2 (first_index_none
                    (fun item : TTimeItem => vertexIndex r <? item.1) (t0 :: ts)) Hfalse).
  by rewrite (proj2 (lookup_ge_None (t0 :: ts) _) (Nat.le_refl _)).
Qed.

Section Times_on_planar.
#[local] Existing Instance planar.

Lemma total_time_is_largest_witness :
  GetTotalTimeSec route_stalled = 200
  ∧ ∀ item, item ∈ m_times route_stalled → item.2 ≤ GetTotalTimeSec route_stalled.
Proof.
  assert (Hne : m_times route_stalled ≠ []) by discriminate.
  destruct (total_time_is_largest route_stalled ascending_0_60_150_200 Hne) as [_ Hmax].
  split; [reflexivity|exact Hmax].
Defined.

Lemma time_to_end_zero_past_last_witness :
  GetCurrentTimeToEndSec (route_timed 20) = 0
  ∧ GetCurrentTimeToEndSec (route_timed 35) = 0.
Proof.
  split; apply time_to_end_zero_past_last; intros item Hin;
    change (m_times (route_timed 20)) with [(0, 0); (10, 60); (20, 150)] in Hin;
    change (m_times (route_timed 35)) with [(0, 0); (10, 60); (20, 150)] in Hin;
    repeat (apply elem_of_cons in Hin as [->|Hin]; [vm_compute; discriminate|]);
    by apply elem_of_nil in Hin.
Defined.

End Times_on_planar.

(** ** Bearing along the polyline *)

Section SegmentAngle.
Context `{Externals}.

(** The [do ... while] of [GetPolySegAngle], started on vertex [n] inside
    the polyline, stops on the first vertex from [n] on that is not almost
    equal to [p1]; it runs to the size of the polyline when there is none. *)
Lemma seg_angle_loop_spec (pts : list PointD) (p1 : PointD) :
  ∀ (turns n : nat),
    (n < length pts)%nat → (length pts - n ≤ S turns)%nat →
    match List.find (fun q => negb (AlmostEqualULPsPoint p1 q)) (drop n pts) with
    | Some q => (seg_angle_loop turns pts p1 (Z.of_nat n)).1 < GetSize pts
                ∧ (seg_angle_loop turns pts p1 (Z.of_nat n)).2 = q
    | None => (seg_angle_loop turns pts p1 (Z.of_nat n)).1 = GetSize pts
    end.
Proof.
  induction turns as [|turns IH]; intros n Hn Hfuel;
    destruct (lookup_lt_is_Some_2 pts n Hn) as [x Hx];
    assert (Hpt : GetPoint pts (Z.of_nat n) = x)
      by (unfold GetPoint; by rewrite Nat2Z.id, Hx);
    rewrite (drop_S _ _ _ Hx); cbn [List.find seg_angle_loop]; rewrite !Hpt;
    unfold GetSize in *;
    destruct (AlmostEqualULPsPoint p1 x) eqn:Hae; cbn [negb andb];
    try (split; [simpl; lia|done]);
    destruct (Z.ltb_spec (Z.of_nat n + 1) (Z.of_nat (length pts))) as [Hlt|Hge];
    try lia.
  - assert (Hdrop : drop (S n) pts = []) by (apply drop_ge; lia).
    rewrite Hdrop. simpl. lia.
  - replace (Z.of_nat n + 1) with (Z.of_nat (S n)) by lia.
    apply IH; lia.
  - assert (Hdrop : drop (S n) pts = []) by (apply drop_ge; lia).
    rewrite Hdrop. simpl. lia.
Qed.

End SegmentAngle.

(** X10.  For a vertex index inside the range of [size_t]:
    [GetPolySegAngle] is 0 when the index is the last vertex of the polyline
    or beyond; otherwise it is the angle, in degrees, from that vertex to the
    first later vertex that is not almost equal to it, and 0 when every
    later vertex is almost equal to it. *)
Theorem poly_seg_angle_skips_coincident `{Externals} (r : Route) (ind : Z) :
  0 ≤ ind < 2 ^ 64 - 1 →
  GetPolySegAngle r ind =
  if GetSize (polyPoints r) <=? ind + 1 then 0%float
  else
    match List.find (fun q => negb (AlmostEqualULPsPoint (GetPoint (polyPoints r) ind) q))
            (drop (S (Z.to_nat ind)) (polyPoints r)) with
    | Some q => RadToDeg (AngleTo (GetPoint (polyPoints r) ind) q)
    | None => 0%float
    end.
Proof.
  intros Hind. unfold GetPolySegAngle.
  destruct (Z.leb_spec (GetSize (polyPoints r)) (ind + 1)) as [Hlast|Hin]; [done|].
  unfold GetSize in Hin.
  pose proof (seg_angle_loop_spec (polyPoints r) (GetPoint (polyPoints r) ind)
                (length (polyPoints r)) (S (Z.to_nat ind))) as Hloop.
  replace (Z.of_nat (S (Z.to_nat ind))) with (ind + 1) in Hloop by lia.
  destruct (seg_angle_loop (length (polyPoints r)) (polyPoints r)
              (GetPoint (polyPoints r) ind) (ind + 1)) as [i p2].
  simpl in Hloop.
  destruct (List.find _ (drop (S (Z.to_nat ind)) (polyPoints r))) as [q|].
  - destruct Hloop as [Hi ->]; [lia|lia|].
    destruct (Z.eqb_spec i (GetSize (polyPoints r))); [lia|done].
  - rewrite Hloop by lia. by rewrite Z.eqb_refl.
Qed.

Section Angle_on_planar.
#[local] Existing Instance planar.

Lemma poly_seg_angle_skips_coincident_witness :
  let r := route_of stuck_start [] [] [] ∅ 0 in
  GetPolySegAngle r 0 = RadToDeg (AngleTo (mkPointD 0 0) (mkPointD 1 0))
  ∧ GetPolySegAngle r 4 = 0%float.
Proof.
  intros r.
  assert (H0 : 0 ≤ 0 < 2 ^ 64 - 1) by lia.
  assert (H4 : 0 ≤ 4 < 2 ^ 64 - 1) by lia.
  split.
  - rewrite (poly_seg_angle_skips_coincident r 0 H0). reflexivity.
  - rewrite (poly_seg_angle_skips_coincident r 4 H4). reflexivity.
Defined.

End Angle_on_planar.

(** ** What moving the cursor leaves alone *)

Section FixFacts.
Context `{Externals}.

Lemma move_iterator_frame (r : Route) (info : GpsInfo) :
  let r' := (MoveIterator r info).1 in
  m_router r' = m_router r ∧ m_routingSettings r' = m_routingSettings r
  ∧ m_name r' = m_name r ∧ m_absentCountries r' = m_absentCountries r
  ∧ m_turns r' = m_turns r ∧ m_times r' = m_times r
  ∧ m_streets r' = m_streets r ∧ m_currentTime r' = m_currentTime r.
Proof.
  unfold MoveIterator.
  match goal with
  | |- context [UpdateProjectionByPrediction (m_poly r) ?rect ?pred] =>
      destruct (UpdateProjectionByPrediction (m_poly r) rect pred) as [poly' res]
  end.
  simpl. repeat split; done.
Qed.

(** Without a positive [m_currentTime] the speed, the timestamp and the
    bearing of the fix play no part in [MoveIterator]. *)
Lemma move_iterator_same_place (r : Route) (a b : GpsInfo) :
  PrimFloat.ltb 0 (m_currentTime r) = false →
  same_place a b →
  MoveIterator r a = MoveIterator r b.
Proof.
  intros Htime (Hlat & Hlon & Hacc). unfold MoveIterator.
  by rewrite Htime, Hlat, Hlon, Hacc.
Qed.

End FixFacts.

(** X12.  Whatever the fixes, [MoveIterator] changes nothing of a route but
    its two trackers: the router id, the settings, the name, the absent
    countries, the turn, time and street tables and [m_currentTime] are,
    after any sequence of fixes, what they were before. *)
Theorem move_iterators_frame `{Externals} (r : Route) (fixes : list GpsInfo) :
  let r' := MoveIterators r fixes in
  m_router r' = m_router r ∧ m_routingSettings r' = m_routingSettings r
  ∧ m_name r' = m_name r ∧ m_absentCountries r' = m_absentCountries r
  ∧ m_turns r' = m_turns r ∧ m_times r' = m_times r
  ∧ m_streets r' = m_streets r ∧ m_currentTime r' = m_currentTime r.
Proof.
  revert r. induction fixes as [|info fixes IH]; intros r; [simpl; repeat split; done|].
  change (MoveIterators r (info :: fixes))
    with (MoveIterators (MoveIterator r info).1 fixes).
  destruct (move_iterator_frame r info) as (H1 & H2 & H3 & H4 & H5 & H6 & H7 & H8).
  destruct (IH (MoveIterator r info).1) as (I1 & I2 & I3 & I4 & I5 & I6 & I7 & I8).
  cbv zeta. repeat split; congruence.
Qed.

(** X13.  [m_currentTime] is never advanced by [MoveIterator], so on a route
    whose [m_currentTime] is not positive, as [Update] leaves it, no fix is
    ever matched with a predicted distance: two sequences of fixes that
    agree, fix by fix, on latitude, longitude and accuracy lead to the same
    route, whatever their speeds, timestamps and bearings. *)
Theorem move_iterators_without_prediction `{Externals} (r : Route)
    (fixes fixes' : list GpsInfo) :
  PrimFloat.ltb 0 (m_currentTime r) = false →
  Forall2 same_place fixes fixes' →
  MoveIterators r fixes = MoveIterators r fixes'
  ∧ PrimFloat.ltb 0 (m_currentTime (MoveIterators r fixes)) = false.
Proof.
  intros Htime Hsame. revert r Htime.
  induction Hsame as [|a b fixes fixes' Hab _ IH]; intros r Htime; [done|].
  change (MoveIterators r (a :: fixes)) with (MoveIterators (MoveIterator r a).1 fixes).
  change (MoveIterators r (b :: fixes')) with (MoveIterators (MoveIterator r b).1 fixes').
  rewrite <- (move_iterator_same_place r a b Htime Hab).
  apply IH.
  destruct (move_iterator_frame r a) as (_ & _ & _ & _ & _ & _ & _ & Hkeep).
  cbv zeta in Hkeep. by rewrite Hkeep.
Qed.

(** X14.  [Update] does nothing on a route whose polyline is not valid; on a
    valid one it sets [m_currentTime] to 0 and rebuilds the simplified
    tracker, from the simplified points when pedestrian information is
    kept, empty otherwise.  It never touches the polyline, its cursor, the
    tables, the absent countries or the settings, and doing it twice is the
    same as doing it once. *)
Theorem update_once `{Externals} (r : Route) :
  Update (Update r) = Update r
  ∧ (IsValid (m_poly r) = false → Update r = r)
  ∧ (IsValid (m_poly r) = true →
     m_currentTime (Update r) = 0%float
     ∧ m_polyPoints (m_simplifiedPoly (Update r))
       = (if m_keepPedestrianInfo (m_routingSettings r)
          then SimplifyNearOptimal 20 (polyPoints r) kSimplifyEpsilon
          else []))
  ∧ m_poly (Update r) = m_poly r
  ∧ m_turns (Update r) = m_turns r ∧ m_times (Update r) = m_times r
  ∧ m_streets (Update r) = m_streets r
  ∧ m_absentCountries (Update r) = m_absentCountries r
  ∧ m_routingSettings (Update r) = m_routingSettings r.
Proof.
  unfold Update.
  destruct (IsValid (m_poly r)) eqn:Hvalid; simpl; rewrite ?Hvalid; simpl;
    repeat split; try done.
  by destruct (m_keepPedestrianInfo (m_routingSettings r)).
Qed.

Section Fixes_on_planar.
#[local] Existing Instance planar.

Lemma move_iterators_without_prediction_witness :
  let r := Update (route_cursor 0x1.0624dd2f1a9fcp-10 10) in
  MoveIterators r [fix_near_15; fix_near_20]
  = MoveIterators r
      [mkGpsInfo 0x1.a36e2eb1c432dp-14 0x1.89374bc6a7efap-10 5 30 100 0;
       mkGpsInfo 0 0x1.0624dd2f1a9fcp-9 5 0 50 180].
Proof.
  intros r.
  apply (move_iterators_without_prediction r).
  - vm_compute. reflexivity.
  - repeat constructor.
Defined.

Lemma update_once_witness :
  Update no_route = no_route
  ∧ m_currentTime
      (Update (set_currentTime (route_cursor 0x1.0624dd2f1a9fcp-10 10) 7)) = 0%float
  ∧ m_polyPoints
      (m_simplifiedPoly
         (Update (set_currentTime (route_cursor 0x1.0624dd2f1a9fcp-10 10) 7))) = [].
Proof.
  destruct (update_once no_route) as (_ & Hinvalid & _).
  destruct (update_once (set_currentTime (route_cursor 0x1.0624dd2f1a9fcp-10 10) 7))
    as (_ & _ & Hvalid & _).
  split; [by apply Hinvalid|].
  destruct (Hvalid eq_refl) as [Htime Hsimplified].
  split; [exact Htime|exact Hsimplified].
Defined.

End Fixes_on_planar.

(** ** More on the wire document *)

Section DocumentFacts.
Context `{Externals}.

Lemma instructions_loop_undefined (times : list TTimeItem) (ts : list TurnItem) :
  ∀ (previousIndex : Z) (i : nat),
    (i ≤ length times)%nat →
    (length times < i + length ts)%nat →
    instructions_loop times previousIndex i ts = None.
Proof.
  induction ts as [|t ts IH]; intros previousIndex i Hi Hlen; simpl in *; [lia|].
  destruct (times !! i) as [timeItem|] eqn:Hlook; [|done]. simpl.
  apply lookup_lt_Some in Hlook. rewrite IH; [done|lia|lia].
Qed.

Lemma instructions_loop_lookup (times : list TTimeItem) (ts : list TurnItem) :
  ∀ (previousIndex : Z) (i : nat) (instructions : list Json),
    instructions_loop times previousIndex i ts = Some instructions →
    length instructions = length ts
    ∧ ∀ (j : nat) (t : TurnItem),
        ts !! j = Some t →
        ∃ time : TTimeItem,
          times !! (i + j)%nat = Some time
          ∧ instructions !! j
            = Some (encode_instruction
                      (match j with
                       | O => previousIndex
                       | S k => match ts !! k with Some p => m_index p | None => 0 end
                       end) t time.2).
Proof.
  induction ts as [|t0 ts IH]; intros previousIndex i instructions Hloop; simpl in Hloop.
  - simplify_eq. split; [done|]. intros j t Hj. done.
  - destruct (times !! i) as [timeItem|] eqn:Hi; [|done]. simpl in Hloop.
    destruct (instructions_loop times (m_index t0) (S i) ts) as [rest|] eqn:Hrest; [|done].
    simpl in Hloop. simplify_eq.
    destruct (IH _ _ _ Hrest) as [Hlen Hitems].
    split; [simpl; by rewrite Hlen|].
    intros [|j] t Hj; simpl in Hj.
    + simplify_eq. exists timeItem. rewrite Nat.add_0_r. done.
    + destruct (Hitems j t Hj) as (time & Htime & Hitem).
      exists time. replace (i + S j)%nat with (S i + j)%nat by lia.
      split; [done|]. simpl. rewrite Hitem. destruct j as [|k]; done.
Qed.


End DocumentFacts.

(** X15.  [GetMeRouteAsJson] has a defined result exactly when the time
    table has at least as many entries as the turn table: the instructions
    loop reads [m_times[i]] for every turn [i], and with fewer checkpoints
    than turns that read is outside the vector. *)
Theorem encode_defined_iff `{Externals} (r : Route) :
  GetMeRouteAsJson r = None ↔ (length (m_times r) < length (m_turns r))%nat.
Proof.
  split.
  - intros Hnone.
    destruct (Nat.lt_ge_cases (length (m_times r)) (length (m_turns r))) as [Hlt|Hge];
      [done|].
    destruct (encode_defined r Hge) as (instructions & _ & Hdoc). congruence.
  - intros Hlt. unfold GetMeRouteAsJson.
    by rewrite (instructions_loop_undefined (m_times r) (m_turns r) 0 0 (Nat.le_0_l _) Hlt).
Qed.

(** X16.  In the encoded document the [instructions] array has one entry per
    turn of the table, in order, side turns included.  In entry [j]:
    [endInterval] is the vertex index of turn [j]; [startInterval] is the
    [endInterval] of entry [j - 1], and 0 in the first entry; [time] is the
    cumulative seconds of the checkpoint at position [j] of the time table,
    whatever its vertex; [exited] tells whether the exit number is not 0. *)
Theorem instructions_chain `{Externals} (r : Route) (doc : Json) :
  GetMeRouteAsJson r = Some doc →
  ∃ instructions,
    member "instructions" doc = Some (JArray instructions)
    ∧ length instructions = length (m_turns r)
    ∧ ∀ (j : nat) (t : TurnItem),
        m_turns r !! j = Some t →
        ∃ (item : Json) (time : TTimeItem),
          instructions !! j = Some item
          ∧ m_times r !! j = Some time
          ∧ member "startInterval" item = Some (JInt (previous_index (m_turns r) j))
          ∧ member "endInterval" item = Some (JInt (m_index t))
          ∧ member "time" item = Some (JInt time.2)
          ∧ member "exited" item = Some (JBool (negb (m_exitNum t =? 0))).
Proof.
  intros Hdoc.
  destruct (Nat.lt_ge_cases (length (m_times r)) (length (m_turns r))) as [Hlt|Hge].
  { unfold GetMeRouteAsJson in Hdoc.
    by rewrite (instructions_loop_undefined (m_times r) (m_turns r) 0 0 (Nat.le_0_l _) Hlt)
      in Hdoc. }
  destruct (encode_defined r Hge) as (instructions & Hins & Hdoc').
  rewrite Hdoc' in Hdoc. apply (inj Some) in Hdoc. subst doc.
  exists instructions. split; [done|].
  destruct (instructions_loop_lookup _ _ _ _ _ Hins) as [Hlen Hitems].
  split; [done|]. intros j t Hj.
  destruct (Hitems j t Hj) as (time & Htime & Hitem).
  eexists. exists time. split; [exact Hitem|]. split; [exact Htime|].
  unfold previous_index. repeat split; done.
Qed.

Section StreetCodec.
Context `{Externals}.



End StreetCodec.


(** X18.  [FromJson] reads four members of the document and no other:
    [points], [times], [streets] and [instructions]; two documents that
    agree on these four decode alike, whatever their [turns],
    [absentCountries], [distanceMercator], [distance], [duration] and
    [name].  When it completes, the route keeps the router id, the name, the
    settings and the absent countries it had before. *)
Theorem from_json_reads_four_members `{Externals} (r0 : Route) (doc doc' : Json) :
  (member "points" doc = member "points" doc' →
   member "times" doc = member "times" doc' →
   member "streets" doc = member "streets" doc' →
   member "instructions" doc = member "instructions" doc' →
   FromJson r0 doc = FromJson r0 doc')
  ∧ ∀ r', FromJson r0 doc = Some r' →
          m_router r' = m_router r0 ∧ m_name r' = m_name r0
          ∧ m_routingSettings r' = m_routingSettings r0
          ∧ m_absentCountries r' = m_absentCountries r0.
Proof.
  split.
  - intros Hpoints Htimes Hstreets Hturns.
    unfold FromJson, decode_points, decode_times, decode_streets, decode_turns.
    by rewrite Hpoints, Htimes, Hstreets, Hturns.
  - intros r' Hdec. unfold FromJson in Hdec.
    destruct (decode_points doc) as [points|]; [|done].
    destruct (decode_times doc) as [routeTimes|]; [|done].
    destruct (decode_streets doc) as [streets|]; [|done].
    destruct (decode_turns doc) as [routeTurns|]; [|done].
    simpl in Hdec. simplify_eq.
    unfold SetStreetNames, SetSectionTimes, SetTurnInstructions, SetGeometry, Update.
    destruct (negb (IsValid (m_poly (set_poly r0 (FollowedPolyline_of points))))); done.
Qed.



(** ** Absent countries *)


(** X21.  [AddAbsentCountry] ignores the empty name and otherwise adds the
    name to the set: afterwards the set holds what it held before and, when
    the name is not empty, the name.  Adding a name twice is the same as
    adding it once, the order in which two names are added does not matter,
    the empty name never enters a set that does not hold it, and nothing
    else of the route changes. *)
Theorem add_absent_country (r : Route) (name : string) :
  (∀ c, c ∈ m_absentCountries (AddAbsentCountry r name)
        ↔ c ∈ m_absentCountries r ∨ (c = name ∧ name ≠ EmptyString))
  ∧ AddAbsentCountry (AddAbsentCountry r name) name = AddAbsentCountry r name
  ∧ (∀ other, AddAbsentCountry (AddAbsentCountry r name) other
              = AddAbsentCountry (AddAbsentCountry r other) name)
  ∧ (EmptyString ∉ m_absentCountries r →
     EmptyString ∉ m_absentCountries (AddAbsentCountry r name))
  ∧ m_poly (AddAbsentCountry r name) = m_poly r
  ∧ m_turns (AddAbsentCountry r name) = m_turns r
  ∧ m_times (AddAbsentCountry r name) = m_times r
  ∧ m_streets (AddAbsentCountry r name) = m_streets r.
Proof.
  assert (Hset : ∀ (r : Route) (n : string),
             m_absentCountries (AddAbsentCountry r n)
             = if decide (n = EmptyString) then m_absentCountries r
               else {[ n ]} ∪ m_absentCountries r).
  { intros r1 n. unfold AddAbsentCountry. by destruct (decide (n = EmptyString)). }
  split; [|split; [|split; [|split]]].
  - intros c. rewrite Hset. destruct (decide (name = EmptyString)) as [He|Hne].
    + split; [by left|]. by intros [Hin|[_ Hname]].
    + rewrite elem_of_union, elem_of_singleton. split.
      * intros [Hc|Hin]; [by right|by left].
      * intros [Hin|[Hc _]]; [by right|by left].
  - unfold AddAbsentCountry. destruct (decide (name = EmptyString)) as [He|Hne]; [done|].
    unfold set_absentCountries. simpl. f_equal.
    by rewrite (assoc_L (∪)), (idemp_L (∪)).
  - intros other. unfold AddAbsentCountry.
    destruct (decide (name = EmptyString)), (decide (other = EmptyString)); try done.
    unfold set_absentCountries. simpl. f_equal.
    by rewrite !(assoc_L (∪)), (comm_L (∪) {[ other ]} {[ name ]}).
  - rewrite Hset. destruct (decide (name = EmptyString)) as [He|Hne]; [done|].
    intros Hnot Hin. apply elem_of_union in Hin as [Hin|Hin]; [|done].
    apply elem_of_singleton in Hin. done.
  - unfold AddAbsentCountry. by destruct (decide (name = EmptyString)).
Qed.

Lemma add_absent_country_witness :
  let r := AddAbsentCountry (AddAbsentCountry route_bare "Y") EmptyString in
  "Y" ∈ m_absentCountries r ∧ "X" ∈ m_absentCountries r
  ∧ EmptyString ∉ m_absentCountries r.
Proof.
  intros r.
  destruct (add_absent_country (AddAbsentCountry route_bare "Y") EmptyString)
    as (Hmem0 & _ & _ & Hempty0 & _).
  destruct (add_absent_country route_bare "Y") as (Hmem & _ & _ & Hempty & _).
  split; [apply Hmem0; left; apply Hmem; right; done|].
  split.
  { apply Hmem0. left. apply Hmem. left.
    change (m_absentCountries route_bare) with ({[ "X" ]} : gset string).
    by apply elem_of_singleton. }
  apply Hempty0, Hempty.
  change (m_absentCountries route_bare) with ({[ "X" ]} : gset string).
  intros Hin. apply elem_of_singleton in Hin. discriminate.
Defined.

(** ** Styles of map points *)

Lemma style_in_table_elem (s : string) (colors : list string) :
  style_in_table s colors = true ↔ s ∈ colors.
Proof.
  induction colors as [|c colors IH]; simpl.
  - split; [done|]. intros Hin. by apply elem_of_nil in Hin.
  - destruct (String.eqb_spec s c) as [->|Hne].
    + split; [intros _; apply list_elem_of_here|done].
    + rewrite IH. split; [apply list_elem_of_further|].
      intros Hin. apply elem_of_cons in Hin as [?|?]; done.
Qed.

Lemma supported_style_fallback (context fallback : string) :
  GetSupportedStyle fallback context fallback = fallback.
Proof.
  unfold GetSupportedStyle.
  destruct (string_empty fallback); [done|].
  by destruct (style_in_table fallback kSupportedColors).
Qed.

(** X22.  [GetSupportedStyle] returns the style it is given when that style
    is an entry of the table of supported styles, and the fallback in every
    other case, the empty style included; the context plays no part.
    Applying it again to its result changes nothing.  With a supported
    fallback the result is always a supported style, and the default style
    is supported. *)
Theorem supported_style_closed (s context context' fallback : string) :
  let result := GetSupportedStyle s context fallback in
  (s ∈ kSupportedColors → result = s)
  ∧ (s ∉ kSupportedColors → result = fallback)
  ∧ GetSupportedStyle s context' fallback = result
  ∧ GetSupportedStyle result context' fallback = result
  ∧ (fallback ∈ kSupportedColors → result ∈ kSupportedColors)
  ∧ GetSupportedStyle GetDefaultStyle context fallback = GetDefaultStyle.
Proof.
  intros result. subst result.
  assert (Hnonempty : ∀ x, x ∈ kSupportedColors → string_empty x = false).
  { intros x Hx. destruct x; [|done]. exfalso.
    apply style_in_table_elem in Hx. vm_compute in Hx. discriminate. }
  assert (Hin : ∀ c, s ∈ kSupportedColors → GetSupportedStyle s c fallback = s).
  { intros c Hs. unfold GetSupportedStyle. rewrite (Hnonempty s Hs).
    by rewrite (proj2 (style_in_table_elem s kSupportedColors) Hs). }
  assert (Hout : ∀ c, s ∉ kSupportedColors → GetSupportedStyle s c fallback = fallback).
  { intros c Hs. unfold GetSupportedStyle. destruct (string_empty s); [done|].
    destruct (style_in_table s kSupportedColors) eqn:Ht; [|done].
    apply style_in_table_elem in Ht. done. }
  split; [apply Hin|]. split; [apply Hout|].
  destruct (decide (s ∈ kSupportedColors)) as [Hs|Hs].
  - rewrite !(Hin _ Hs). split; [done|]. split; [done|]. split; [done|].
    vm_compute. reflexivity.
  - rewrite !(Hout _ Hs). split; [done|].
    split; [apply supported_style_fallback|]. split; [done|].
    vm_compute. reflexivity.
Qed.

Lemma supported_style_closed_witness :
  GetSupportedStyle "placemark-blue" "bookmark" "placemark-red" = "placemark-blue"
  ∧ GetSupportedStyle "placemark-teal" "bookmark" "placemark-red" = "placemark-red"
  ∧ GetSupportedStyle EmptyString "bookmark" "placemark-red" = "placemark-red".
Proof.
  destruct (supported_style_closed "placemark-blue" "bookmark" "bookmark" "placemark-red")
    as (Hin & _).
  destruct (supported_style_closed "placemark-teal" "bookmark" "bookmark" "placemark-red")
    as (_ & Hout & _).
  destruct (supported_style_closed EmptyString "bookmark" "bookmark" "placemark-red")
    as (_ & Hempty & _).
  split; [apply Hin; apply style_in_table_elem; vm_compute; reflexivity|].
  split; [apply Hout|apply Hempty]; intros Hx; apply style_in_table_elem in Hx;
    vm_compute in Hx; discriminate.
Defined.

Section Document_on_planar.
#[local] Existing Instance planar.

Lemma route_full_encoded :
  ∃ doc, GetMeRouteAsJson route_full = Some doc.
Proof.
  assert (Hlen : (length (m_turns route_full) ≤ length (m_times route_full))%nat)
    by (simpl; lia).
  destruct (encode_defined route_full Hlen) as (instructions & _ & Hdoc). eauto.
Qed.


Lemma encode_defined_iff_witness :
  GetMeRouteAsJson route_short_times = None ∧ GetMeRouteAsJson route_full ≠ None.
Proof.
  split.
  - apply encode_defined_iff. simpl. lia.
  - intros Hnone. apply encode_defined_iff in Hnone. simpl in Hnone. lia.
Defined.

Lemma instructions_chain_witness :
  ∃ doc instructions item,
    GetMeRouteAsJson route_full = Some doc
    ∧ member "instructions" doc = Some (JArray instructions)
    ∧ length instructions = 3%nat
    ∧ instructions !! 1%nat = Some item
    ∧ member "startInterval" item = Some (JInt 5)
    ∧ member "endInterval" item = Some (JInt 12)
    ∧ member "time" item = Some (JInt 60).
Proof.
  destruct route_full_encoded as [doc Hdoc].
  destruct (instructions_chain route_full doc Hdoc) as (instructions & Hm & Hlen & Hitems).
  destruct (Hitems 1%nat (turn_at 12) eq_refl)
    as (item & time & Hitem & Htime & Hstart & Hend & Hsec & _).
  exists doc, instructions, item.
  simpl in Htime. simplify_eq.
  repeat split; assumption.
Defined.


Lemma from_json_reads_four_members_witness :
  let four :=
    JObject [("instructions", JArray []);
             ("streets", JArray (encode_street <$> m_streets route_bare));
             ("times", JArray []);
             ("points", JArray (encode_point <$> polyPoints route_bare))] in
  ∃ doc,
    GetMeRouteAsJson route_bare = Some doc
    ∧ FromJson no_route doc = FromJson no_route four
    ∧ ∀ r', FromJson no_route doc = Some r' → m_router r' = m_router no_route.
Proof.
  intros four.
  assert (Hlen : (length (m_turns route_bare) ≤ length (m_times route_bare))%nat)
    by (simpl; lia).
  destruct (encode_defined route_bare Hlen) as (instructions & Hins & Hdoc).
  simpl in Hins. simplify_eq.
  eexists. split; [exact Hdoc|].
  match goal with
  | |- FromJson _ ?doc = _ ∧ _ =>
      destruct (from_json_reads_four_members no_route doc four) as [Hsame Hkeep]
  end.
  split.
  - apply Hsame; reflexivity.
  - intros r' Hr'. by destruct (Hkeep r' Hr').
Defined.



End Document_on_planar.

(** ** The current turn along a sequence of fixes *)

(** X23.  With the tracker's update as the specification describes it, on a
    turn table ordered ascending by vertex index and a polyline of at most
    2^32 points whose cursor starts inside it: along any sequence of fixes,
    each further [MoveIterator] leaves the position [GetCurrentTurn] gives
    where it was or moves it forward. *)
Theorem current_turn_along_fixes `{Externals} (r : Route) (before after : list GpsInfo) :
  ascending (m_index <$> m_turns r) →
  0 ≤ vertexIndex r < GetSize (polyPoints r) →
  GetSize (polyPoints r) ≤ 2 ^ 32 →
  (GetCurrentTurn (MoveIterators r before)
   ≤ GetCurrentTurn (MoveIterators r (before ++ after)))%nat.
Proof.
  intros Hasc Hstart Hsize.
  rewrite move_iterators_app.
  destruct (move_iterators_cursor before r) as (Hp1 & Hm1 & Hb1).
  destruct (move_iterators_cursor after (MoveIterators r before)) as (Hp2 & Hm2 & Hb2).
  rewrite Hp1 in Hb2.
  assert (Hturns : ∀ (fixes : list GpsInfo) (r0 : Route),
             m_turns (MoveIterators r0 fixes) = m_turns r0).
  { induction fixes as [|info fixes IH]; intros r0; [done|].
    change (MoveIterators r0 (info :: fixes))
      with (MoveIterators (MoveIterator r0 info).1 fixes).
    rewrite IH. by destruct (move_iterator_frame r0 info) as (_ & _ & _ & _ & Ht & _). }
  assert (Hasc1 : ascending (m_index <$> m_turns (MoveIterators r before)))
    by (by rewrite Hturns).
  assert (Hasc2 : ascending
                    (m_index <$> m_turns (MoveIterators (MoveIterators r before) after)))
    by (by rewrite !Hturns).
  rewrite (current_turn_first_after _ Hasc1), (current_turn_first_after _ Hasc2).
  rewrite !Hturns. apply first_index_mono. intros t Ht.
  apply Z.ltb_lt in Ht. apply Z.ltb_lt.
  unfold to_uint32 in *. rewrite Z.mod_small in * by lia. lia.
Qed.

Section Along_on_planar.
#[local] Existing Instance planar.

Lemma current_turn_along_fixes_witness :
  let r := route_of straight_line three_turns [] [] ∅ 10 in
  (GetCurrentTurn (MoveIterators r [fix_near_15])
   ≤ GetCurrentTurn (MoveIterators r ([fix_near_15] ++ [fix_near_20; fix_near_10])))%nat.
Proof.
  intros r.
  apply (current_turn_along_fixes r).
  - exact ascending_5_12_40.
  - split; vm_compute; [discriminate|reflexivity].
  - vm_compute. discriminate.
Defined.

End Along_on_planar.
